(** * Pollygolt backend worker: conversation continuity and streaming relay

    A shallow embedding of [src/index.ts]: the language policy table, the
    in-memory conversation store, and the three endpoint handlers
    ([handleStartConversation], [handleMessage], [handleStreamMessage]),
    followed by the properties of the specification that concern them.

    Conventions.
    - A JavaScript string is a [string] holding its UTF-8 bytes.
    - The process-wide [conversations] map is a [gmap string Conversation];
      a handler's [conversation] variable is a reference into that map, so
      a push through it is an update of the map at [sessionId].
    - The upstream completion API, [Date.now()] and [Math.random()] belong
      to the environment: they are arguments of the handlers, and every
      request handed to the upstream API is recorded in the world.
    - A handler run is taken as a whole, the consumption of the upstream
      event stream included; the caller reads the response stream to its
      end. Interleavings of runs at their [await]s, and cancellation by
      the caller, are not modelled.
    - The router ([fetch], CORS headers) and the parsing of the request
      body stay outside: a relay handler starts from the destructured
      body. *)

From Stdlib Require Import Ascii QArith.
From stdpp Require Import base strings gmap list pretty sorting.

Local Open Scope nat_scope.

(** ** JavaScript values and strings *)

Module JS.

(** The few kinds of value a property read on the policy tables can
    produce: a string found on the table itself, or what the prototype
    chain of an object literal supplies. *)
Inductive value :=
| Undefined
| Str (s : string)
| NativeFunction (name : string)
| ObjectPrototype.

(** [Object.prototype], the prototype of every object literal. *)
Definition object_prototype : list (string * value) :=
  [ ("constructor", NativeFunction "Object");
    ("__defineGetter__", NativeFunction "__defineGetter__");
    ("__defineSetter__", NativeFunction "__defineSetter__");
    ("hasOwnProperty", NativeFunction "hasOwnProperty");
    ("__lookupGetter__", NativeFunction "__lookupGetter__");
    ("__lookupSetter__", NativeFunction "__lookupSetter__");
    ("isPrototypeOf", NativeFunction "isPrototypeOf");
    ("propertyIsEnumerable", NativeFunction "propertyIsEnumerable");
    ("toString", NativeFunction "toString");
    ("valueOf", NativeFunction "valueOf");
    ("__proto__", ObjectPrototype);
    ("toLocaleString", NativeFunction "toLocaleString") ].

Fixpoint assoc {A} (k : string) (l : list (string * A)) : option A :=
  match l with
  | [] => None
  | (k', v) :: l' => if String.eqb k k' then Some v else assoc k l'
  end.

(** An object literal whose own properties are the strings [own]. *)
Definition get (own : list (string * string)) (k : string) : value :=
  match assoc k own with
  | Some s => Str s
  | None =>
      match assoc k object_prototype with
      | Some v => v
      | None => Undefined
      end
  end.

(** [k in obj]: own properties and inherited ones alike. *)
Definition has_property (own : list (string * string)) (k : string) : bool :=
  match assoc k own with
  | Some _ => true
  | None => bool_decide (is_Some (assoc k object_prototype))
  end.

(** [Object.hasOwn(obj, k)]. *)
Definition has_own (own : list (string * string)) (k : string) : bool :=
  bool_decide (is_Some (assoc k own)).

(** String conversion as performed by a template literal. *)
Definition to_string (v : value) : string :=
  match v with
  | Undefined => "undefined"
  | Str s => s
  | NativeFunction name => "function " +:+ name +:+ "() { [native code] }"
  | ObjectPrototype => "[object Object]"
  end.

(** Truthiness of a possibly absent string: [undefined] and [''] are
    falsy. *)
Definition truthy (o : option string) : bool :=
  match o with
  | Some s => negb (String.eqb s "")
  | None => false
  end.

(** [a || ''] on a possibly absent string. *)
Definition or_empty (o : option string) : string :=
  match o with
  | Some s => s
  | None => ""
  end.

(** [a || null] on a possibly absent string. *)
Definition or_null (o : option string) : option string :=
  match o with
  | Some s => if String.eqb s "" then None else Some s
  | None => None
  end.

(** [s.substr(start, len)] for non-negative arguments. *)
Fixpoint substr (start len : nat) (s : string) : string :=
  match start, s with
  | S start', String _ s' => substr start' len s'
  | S _, EmptyString => EmptyString
  | O, _ =>
      match len, s with
      | S len', String c s' => String c (substr O len' s')
      | _, _ => EmptyString
      end
  end.

Definition bytes (l : list N) : list ascii := map ascii_of_N l.

(** The WhiteSpace and LineTerminator code points of ECMAScript, each
    as its UTF-8 byte sequence. *)
Definition white_space : list (list ascii) :=
  map bytes
    [ [9]; [10]; [11]; [12]; [13]; [32];          (* TAB LF VT FF CR SP *)
      [194; 160];                                 (* U+00A0 *)
      [225; 154; 128];                            (* U+1680 *)
      [226; 128; 128]; [226; 128; 129]; [226; 128; 130]; [226; 128; 131];
      [226; 128; 132]; [226; 128; 133]; [226; 128; 134]; [226; 128; 135];
      [226; 128; 136]; [226; 128; 137]; [226; 128; 138]; (* U+2000..200A *)
      [226; 128; 168]; [226; 128; 169];           (* U+2028 U+2029 *)
      [226; 128; 175];                            (* U+202F *)
      [226; 129; 159];                            (* U+205F *)
      [227; 128; 128];                            (* U+3000 *)
      [239; 187; 191] ]%N.                        (* U+FEFF *)

Fixpoint strip_prefix (p l : list ascii) : option (list ascii) :=
  match p, l with
  | [], _ => Some l
  | a :: p', b :: l' => if Ascii.eqb a b then strip_prefix p' l' else None
  | _ :: _, [] => None
  end.

Fixpoint strip_any (seqs : list (list ascii)) (l : list ascii)
  : option (list ascii) :=
  match seqs with
  | [] => None
  | p :: seqs' =>
      match strip_prefix p l with
      | Some r => Some r
      | None => strip_any seqs' l
      end
  end.

Fixpoint strip_all (seqs : list (list ascii)) (fuel : nat) (l : list ascii)
  : list ascii :=
  match fuel with
  | O => l
  | S fuel' =>
      match strip_any seqs l with
      | Some r => strip_all seqs fuel' r
      | None => l
      end
  end.

Definition trim_start (l : list ascii) : list ascii :=
  strip_all white_space (length l) l.

Definition trim_end (l : list ascii) : list ascii :=
  rev (strip_all (map (@rev ascii) white_space) (length l) (rev l)).

(** [s.trim()]. *)
Definition trim (s : string) : string :=
  String.string_of_list_ascii
    (trim_end (trim_start (String.list_ascii_of_string s))).


Definition nl : string := String (ascii_of_nat 10) "".

End JS.

(** ** Language policy *)

Inductive TargetLang := en | fr | es | ja | ar.

Global Instance TargetLang_eq_dec : EqDecision TargetLang.
Proof. solve_decision. Defined.

(** The code of a supported language, as it travels in a request. *)
Definition code (l : TargetLang) : string :=
  match l with
  | en => "en" | fr => "fr" | es => "es" | ja => "ja" | ar => "ar"
  end.

Definition langName : list (string * string) :=
  [ ("en", "English");
    ("fr", "French");
    ("es", "Spanish");
    ("ja", "Japanese");
    ("ar", "Arabic") ].

Definition specificInstructions : list (string * string) :=
  [ ("en", "Respond in English only. Use proper English grammar and vocabulary.");
    ("fr", "Répondez uniquement en français. Utilisez une grammaire et un vocabulaire français corrects.");
    ("es", "Responde únicamente en español. Usa gramática y vocabulario español correctos.");
    ("ja", "日本語でのみ回答してください。正しい日本語の文法と語彙を使用してください。");
    ("ar", "أجب باللغة العربية فقط. استخدم قواعد اللغة العربية والمفردات الصحيحة.") ].

Definition getLanguageInstructions (targetLang : string) : string :=
  let name := JS.to_string (JS.get langName targetLang) in
  let baseInstructions :=
    "You are a helpful AI assistant. You MUST respond ONLY in " +:+ name
    +:+ ". Do not use any other language. Always respond in " +:+ name
    +:+ " regardless of what language the user writes in. Maintain conversational context and handle follow-up questions naturally, but always in "
    +:+ name +:+ "." in
  baseInstructions +:+ " "
  +:+ JS.to_string (JS.get specificInstructions targetLang).

(** The name of a supported language, [langName[l]]. *)
Definition lang_name (l : TargetLang) : string :=
  JS.to_string (JS.get langName (code l)).

(** ** Data model *)

Inductive Role := user | assistant.

Global Instance Role_eq_dec : EqDecision Role.
Proof. solve_decision. Defined.

Record Message := { role : Role; content : string }.

Record Conversation := {
  responseIds : list string;
  messages : list Message
}.

Record WorkerEnv := { OPENAI_API_KEY : option string }.

(** The JSON body of a relay request, as destructured by both relay
    handlers; [None] is an absent field. *)
Record RelayBody := {
  sessionId : option string;
  message : option string;
  targetLang : option string;
  temperature : option Q;
  maxTokens : option Z
}.

(** The argument of [openai.responses.create]. *)
Record CreateParams := {
  stream : bool;
  model : string;
  param_temperature : Q;
  max_output_tokens : Z;
  instructions : string;
  input : string;
  previous_response_id : option string;
  store : bool
}.

(** What an awaited promise of the upstream client settles to. *)
Inductive Settled (A : Type) :=
| Resolved (a : A)
| Rejected.
Arguments Resolved {A} a.
Arguments Rejected {A}.

(** The fields of a non-streaming upstream response the relay reads. *)
Record UpstreamResponse := {
  response_id : string;
  output_text : option string
}.

(** The [response] member of a streaming event. *)
Record EventResponse := {
  event_response_id : option string;
  event_response_error : bool      (* a truthy [error] member *)
}.

Record StreamEvent := {
  event_type : string;
  event_delta : option string;
  event_response : option EventResponse
}.

(** One step of the upstream async iterator: an event, or an exception.
    The end of the list is the end of the iteration. *)
Inductive Pull :=
| Yield (event : StreamEvent)
| IterThrow.

(** The caller's output channel: the chunks enqueued on the
    [ReadableStream] controller and the state of the stream. *)
Inductive ChannelState := Readable | Closed | Errored.

Definition Chunk := list Byte.byte.

Record Channel := {
  chunks : list Chunk;
  channel_state : ChannelState
}.

Inductive ResponseBody :=
| JsonError (error : string)
| JsonSessionId (session : string)
| JsonMessage (reply : string) (responseId : string)
| TextStream (channel : Channel).

Record Response := {
  status : nat;
  headers : list (string * string);
  body : ResponseBody
}.

(** The state a handler runs in: the [conversations] map, and the record
    of the requests handed to the upstream API so far. *)
Record World := {
  conversations : gmap string Conversation;
  upstream_calls : list CreateParams
}.

Definition initial_world : World :=
  {| conversations := ∅; upstream_calls := [] |}.

(** ** A state and exception monad for handler code *)

Inductive Outcome (A : Type) :=
| Returned (a : A)
| Threw.
Arguments Returned {A} a.
Arguments Threw {A}.

Definition M (S A : Type) : Type := S → Outcome A * S.

Definition ret {S A} (a : A) : M S A := λ s, (Returned a, s).

Definition throw {S A} : M S A := λ s, (Threw, s).

Definition bind {S A B} (m : M S A) (k : A → M S B) : M S B :=
  λ s, match m s with
       | (Returned a, s') => k a s'
       | (Threw, s') => (Threw, s')
       end.

(** [try { m } catch { h }]: the handler runs in the state reached when
    the exception was thrown. *)
Definition try_catch {S A} (m : M S A) (h : M S A) : M S A :=
  λ s, match m s with
       | (Returned a, s') => (Returned a, s')
       | (Threw, s') => h s'
       end.

Definition gets {S A} (f : S → A) : M S A := λ s, (Returned (f s), s).

Definition modify {S} (f : S → S) : M S unit := λ s, (Returned tt, f s).

(** Run code written against the world in a larger state. *)
Definition on_world {T A} (m : M World A) : M (World * T) A :=
  λ '(w, t), let '(o, w') := m w in (o, (w', t)).

Declare Scope handler_scope.
Delimit Scope handler_scope with handler.
Notation "'let*' x ':=' m 'in' k" := (bind m (λ x, k))
  (at level 10, x name, m at level 100, k at level 200) : handler_scope.
Local Open Scope handler_scope.

(** ** The conversation store *)

Definition conversations_get (sessionId : string) : M World (option Conversation) :=
  gets (λ w, conversations w !! sessionId).

Definition conversations_set (sessionId : string) (c : Conversation) : M World unit :=
  modify (λ w, {| conversations := <[sessionId := c]> (conversations w);
                  upstream_calls := upstream_calls w |}).

(** [conversation.messages.push(m)] through the reference obtained at
    [sessionId]. *)
Definition push_message (sessionId : string) (m : Message) : M World unit :=
  modify (λ w,
    {| conversations :=
         alter (λ c, {| responseIds := responseIds c;
                        messages := messages c ++ [m] |})
               sessionId (conversations w);
       upstream_calls := upstream_calls w |}).

(** [conversation.responseIds.push(id)]. *)
Definition push_responseId (sessionId : string) (id : string) : M World unit :=
  modify (λ w,
    {| conversations :=
         alter (λ c, {| responseIds := responseIds c ++ [id];
                        messages := messages c |})
               sessionId (conversations w);
       upstream_calls := upstream_calls w |}).

(** [conversation.responseIds[conversation.responseIds.length - 1]]. *)
Definition last_responseId (sessionId : string) : M World (option string) :=
  gets (λ w, c ← conversations w !! sessionId; last (responseIds c)).

(** [await openai.responses.create(params)] against an upstream that
    answers [openai params]: the request is recorded, and a rejected
    promise is an exception. *)
Definition responses_create {A} (openai : CreateParams → Settled A)
    (params : CreateParams) : M World A :=
  let* _ := modify (λ w, {| conversations := conversations w;
                      upstream_calls := upstream_calls w ++ [params] |}) in
  match openai params with
  | Resolved a => ret a
  | Rejected => throw
  end.

(** ** Handlers *)

Definition json (status : nat) (b : ResponseBody) : Response :=
  {| status := status;
     headers := [("Content-Type", "application/json")];
     body := b |}.

(** [now] is the value of [Date.now()], [random36] the text of
    [Math.random().toString(36)]. *)
Definition new_sessionId (now : N) (random36 : string) : string :=
  "session_" +:+ pretty now +:+ "_" +:+ JS.substr 2 9 random36.

Definition handleStartConversation (now : N) (random36 : string) : M World Response :=
  let sessionId := new_sessionId now random36 in
  let* _ := conversations_set sessionId {| responseIds := []; messages := [] |} in
  ret (json 200 (JsonSessionId sessionId)).

(** The test both relay handlers start with. *)
Definition invalid_request (b : RelayBody) : bool :=
  negb (JS.truthy (sessionId b)) || negb (JS.truthy (message b))
  || negb (JS.truthy (targetLang b))
  || negb (JS.has_property langName (JS.or_empty (targetLang b))).

Definition relay_input (message targetLang : string) : string :=
  "User message: " +:+ message +:+ JS.nl +:+ JS.nl +:+ "Please respond in "
  +:+ JS.to_string (JS.get langName targetLang) +:+ " only.".

Definition relay_params (streaming : bool) (b : RelayBody)
    (previousResponseId : option string) : CreateParams :=
  {| stream := streaming;
     model := "gpt-4o-mini";
     param_temperature := default (Qmake 3 10) (temperature b);
     max_output_tokens := default 128%Z (maxTokens b);
     instructions := getLanguageInstructions (JS.or_empty (targetLang b));
     input := relay_input (JS.or_empty (message b)) (JS.or_empty (targetLang b));
     previous_response_id := previousResponseId;
     store := true |}.

(** [response.output_text?.trim?.() ?? '']. *)
Definition reply_text (response : UpstreamResponse) : string :=
  match output_text response with
  | Some text => JS.trim text
  | None => ""
  end.

Definition handleMessage (env : WorkerEnv) (b : RelayBody)
    (openai : CreateParams → Settled UpstreamResponse) : M World Response :=
  if invalid_request b then
    ret (json 400 (JsonError "Invalid request"))
  else if negb (JS.truthy (OPENAI_API_KEY env)) then
    ret (json 500 (JsonError "Server missing OpenAI API key"))
  else
    let sid := JS.or_empty (sessionId b) in
    let* conversation := conversations_get sid in
    match conversation with
    | None => ret (json 404 (JsonError "Conversation not found"))
    | Some _ =>
        let* _ := push_message sid {| role := user; content := JS.or_empty (message b) |} in
        let* last_id := last_responseId sid in
        let previousResponseId := JS.or_null last_id in
        let* response := responses_create openai (relay_params false b previousResponseId) in
        let assistantMessage := reply_text response in
        let* _ := push_responseId sid (response_id response) in
        let* _ := push_message sid {| role := assistant; content := assistantMessage |} in
        ret (json 200 (JsonMessage assistantMessage (response_id response)))
    end.

(** *** The streaming relay *)

(** [new TextEncoder().encode(s)]: the UTF-8 bytes of [s]. *)
Definition encode (s : string) : Chunk := String.list_byte_of_string s.

(** [controller.enqueue(chunk)]: a [TypeError] unless the stream is
    readable. *)
Definition controller_enqueue (c : Chunk) : M (World * Channel) unit :=
  λ '(w, ch),
    match channel_state ch with
    | Readable =>
        (Returned tt, (w, {| chunks := chunks ch ++ [c]; channel_state := Readable |}))
    | _ => (Threw, (w, ch))
    end.

(** [controller.close()]: a [TypeError] unless the stream is readable. *)
Definition controller_close : M (World * Channel) unit :=
  λ '(w, ch),
    match channel_state ch with
    | Readable =>
        (Returned tt, (w, {| chunks := chunks ch; channel_state := Closed |}))
    | _ => (Threw, (w, ch))
    end.

(** [controller.error(e)]: no effect unless the stream is readable. *)
Definition controller_error : M (World * Channel) unit :=
  modify (λ '(w, ch),
    match channel_state ch with
    | Readable => (w, {| chunks := chunks ch; channel_state := Errored |})
    | _ => (w, ch)
    end).

(** The two variables of the [start] callback that the loop assigns. *)
Record Pending := {
  fullResponse : string;
  responseId : string
}.

(** How the [for await] loop was left, when not by an exception. *)
Inductive LoopExit :=
| Exhausted       (* the iterator is done *)
| Broke           (* [break] *)
| ReturnedEarly.  (* [return] *)

Definition is_created (event : StreamEvent) : bool :=
  String.eqb (event_type event) "response.created".

Definition is_delta (event : StreamEvent) : bool :=
  String.eqb (event_type event) "response.output_text.delta".

Definition is_done (event : StreamEvent) : bool :=
  String.eqb (event_type event) "response.output_text.done".

(** ['response' in event && event.response?.error]. *)
Definition has_error (event : StreamEvent) : bool :=
  match event_response event with
  | Some r => event_response_error r
  | None => false
  end.

Fixpoint for_await (openaiStream : list Pull) (p : Pending)
  : M (World * Channel) (LoopExit * Pending) :=
  match openaiStream with
  | [] => ret (Exhausted, p)
  | IterThrow :: _ => throw
  | Yield event :: rest =>
      let p1 :=
        if is_created event then
          {| fullResponse := fullResponse p;
             responseId := JS.or_empty (r ← event_response event; event_response_id r) |}
        else p in
      let* p2 :=
        (if is_delta event && JS.truthy (event_delta event) then
           let delta := JS.or_empty (event_delta event) in
           let p2 := {| fullResponse := fullResponse p1 +:+ delta;
                        responseId := responseId p1 |} in
           let* _ := controller_enqueue (encode delta) in
           ret p2
         else ret p1) in
      if is_done event then
        let* _ := controller_close in
        ret (Broke, p2)
      else if has_error event then
        let* _ := controller_error in
        ret (ReturnedEarly, p2)
      else for_await rest p2
  end.

(** The [start] callback of the [ReadableStream]; [sid] stands for the
    captured [conversation] reference. *)
Definition start (sid : string) (params : CreateParams)
    (openai : CreateParams → Settled (list Pull)) : M (World * Channel) unit :=
  try_catch
    (let* openaiStream := on_world (responses_create openai params) in
     let* exit := for_await openaiStream {| fullResponse := ""; responseId := "" |} in
     match exit with
     | (ReturnedEarly, _) => ret tt
     | (_, p) =>
         if JS.truthy (Some (responseId p)) then
           let* _ := on_world (push_responseId sid (responseId p)) in
           on_world (push_message sid {| role := assistant; content := fullResponse p |})
         else ret tt
     end)
    controller_error.

(** [new ReadableStream({ start })], followed until [start] settles: the
    channel as the caller will have observed it. A rejected [start]
    errors the stream. *)
Definition new_ReadableStream (start : M (World * Channel) unit) : M World Channel :=
  λ w,
    match start (w, {| chunks := []; channel_state := Readable |}) with
    | (Returned _, (w', ch)) => (Returned ch, w')
    | (Threw, (w', ch)) =>
        (Returned {| chunks := chunks ch;
                     channel_state := match channel_state ch with
                                      | Readable => Errored
                                      | st => st
                                      end |}, w')
    end.

Definition handleStreamMessage (env : WorkerEnv) (b : RelayBody)
    (openai : CreateParams → Settled (list Pull)) : M World Response :=
  if invalid_request b then
    ret (json 400 (JsonError "Invalid request"))
  else if negb (JS.truthy (OPENAI_API_KEY env)) then
    ret (json 500 (JsonError "Server missing OpenAI API key"))
  else
    let sid := JS.or_empty (sessionId b) in
    let* conversation := conversations_get sid in
    match conversation with
    | None => ret (json 404 (JsonError "Conversation not found"))
    | Some _ =>
        let* _ := push_message sid {| role := user; content := JS.or_empty (message b) |} in
        let* last_id := last_responseId sid in
        let previousResponseId := JS.or_null last_id in
        let* channel :=
          new_ReadableStream (start sid (relay_params true b previousResponseId) openai) in
        ret {| status := 200;
               headers := [("Content-Type", "text/plain; charset=utf-8");
                           ("Cache-Control", "no-cache")];
               body := TextStream channel |}
    end.

(** ** Runs of the worker *)

(** One request served by the worker, with what the environment
    answers during it. *)
Inductive Call :=
| StartConversation (now : N) (random36 : string)
| SendMessage (env : WorkerEnv) (b : RelayBody)
    (openai : CreateParams → Settled UpstreamResponse)
| StreamMessage (env : WorkerEnv) (b : RelayBody)
    (openai : CreateParams → Settled (list Pull)).

Definition handle (c : Call) : M World Response :=
  match c with
  | StartConversation now random36 => handleStartConversation now random36
  | SendMessage env b openai => handleMessage env b openai
  | StreamMessage env b openai => handleStreamMessage env b openai
  end.

(** The world after a call, whether the handler returned or threw. *)
Definition after (c : Call) (w : World) : World := snd (handle c w).

(** The world after a sequence of calls served one after the other. *)
Definition after_all (cs : list Call) (w : World) : World :=
  foldl (λ w c, after c w) w cs.

(** The requests a call hands to the upstream API when served in [w]. *)
Definition issued (c : Call) (w : World) : list CreateParams :=
  drop (length (upstream_calls w)) (upstream_calls (after c w)).

(** The relay request carried by a call, if it is one: streaming or not,
    the environment, the body. *)
Definition relay_of (c : Call) : option (bool * WorkerEnv * RelayBody) :=
  match c with
  | StartConversation _ _ => None
  | SendMessage env b _ => Some (false, env, b)
  | StreamMessage env b _ => Some (true, env, b)
  end.

(** ** Notions the properties are stated with *)

Definition assistant_turns (c : Conversation) : nat :=
  length (filter (λ m, role m = assistant) (messages c)).

Definition user_turn (text : string) : Message :=
  {| role := user; content := text |}.

Definition assistant_turn (text : string) : Message :=
  {| role := assistant; content := text |}.

(** A conversation after the user turn of a relay, and after its reply. *)
Definition with_user_turn (text : string) (c : Conversation) : Conversation :=
  {| responseIds := responseIds c; messages := messages c ++ [user_turn text] |}.

Definition with_reply (text id reply : string) (c : Conversation) : Conversation :=
  {| responseIds := responseIds c ++ [id];
     messages := messages c ++ [user_turn text; assistant_turn reply] |}.

(** The supported set of language codes. *)
Definition supported (lang : string) : Prop := ∃ l, lang = code l.

(** The property names every object literal inherits. *)
Definition inherited_names : list string := JS.object_prototype.*1.

Definition configured (env : WorkerEnv) : Prop :=
  JS.truthy (OPENAI_API_KEY env) = true.

(** The request a relay issues for [b] on a conversation found as [c]. *)
Definition request_for (streaming : bool) (b : RelayBody) (c : Conversation)
  : CreateParams :=
  relay_params streaming b (JS.or_null (last (responseIds c))).

(** The events of a stream prefix that neither complete the stream nor
    carry an error. *)
Definition quiet (event : StreamEvent) : Prop :=
  is_done event = false ∧ has_error event = false.

(** The payloads of the text-delta events among [events], in order. *)
Fixpoint delta_payloads (events : list StreamEvent) : list string :=
  match events with
  | [] => []
  | event :: rest =>
      match is_delta event, event_delta event with
      | true, Some d => d :: delta_payloads rest
      | _, _ => delta_payloads rest
      end
  end.

Definition nonempty (s : string) : Prop := s ≠ "".

Global Instance nonempty_dec (s : string) : Decision (nonempty s).
Proof. unfold nonempty. apply _. Defined.

(** The chunks a stream prefix puts on the output channel. *)
Definition forwarded (events : list StreamEvent) : list Chunk :=
  encode <$> filter nonempty (delta_payloads events).

(** The response identifier in force after [events]: the one of the last
    creation event, [""] when that event has none or none was seen. *)
Fixpoint captured_id (events : list StreamEvent) (current : string) : string :=
  match events with
  | [] => current
  | event :: rest =>
      captured_id rest
        (if is_created event
         then JS.or_empty (r ← event_response event; event_response_id r)
         else current)
  end.

Definition join (l : list string) : string := foldr String.append "" l.

(** A creation event that supplies no response identifier, or an event
    of another kind. *)
Definition supplies_no_id (event : StreamEvent) : Prop :=
  is_created event = true →
  JS.or_empty (r ← event_response event; event_response_id r) = "".

(** A conversation after a streaming relay whose loop consumed [events]
    and was left without an error: the reply is committed when an
    identifier is in force. *)
Definition settled (events : list StreamEvent) (text : string) (c : Conversation)
  : Conversation :=
  if decide (captured_id events "" = "") then with_user_turn text c
  else with_reply text (captured_id events "") (join (delta_payloads events)) c.

(** The response of the streaming relay once the channel is [ch]. *)
Definition text_stream (ch : Channel) : Response :=
  {| status := 200;
     headers := [("Content-Type", "text/plain; charset=utf-8");
                 ("Cache-Control", "no-cache")];
     body := TextStream ch |}.

(** The conversations a relay of [text] can leave in place of [c]: the
    user turn alone, or the user turn and a reply. *)
Definition extends (text : string) (c c' : Conversation) : Prop :=
  c' = with_user_turn text c ∨ ∃ id reply, c' = with_reply text id reply c.

(** What a relay call can have done to the world: nothing; or looked
    the session up, extended it and called upstream once. *)
Inductive relay_effect (streaming : bool) (b : RelayBody) (w w' : World) : Prop :=
| relay_refused :
    w' = w → relay_effect streaming b w w'
| relay_forwarded sid text c c' :
    sessionId b = Some sid → message b = Some text →
    conversations w !! sid = Some c → extends text c c' →
    w' = {| conversations := <[sid := c']> (conversations w);
            upstream_calls := upstream_calls w ++ [request_for streaming b c] |} →
    relay_effect streaming b w w'.

(** The invariant of the data model. *)
Definition continuity (c : Conversation) : Prop :=
  length (responseIds c) = assistant_turns c.

(** The session identifiers handed out by one create call per draw of
    the clock and of the random source. *)
Fixpoint create_all (draws : list (N * string)) : M World (list string) :=
  match draws with
  | [] => ret []
  | (now, random36) :: rest =>
      let* r := handleStartConversation now random36 in
      let* ids := create_all rest in
      ret (match body r with
           | JsonSessionId session => session :: ids
           | _ => ids
           end)
  end.

(** The identifiers handed out by one create call per draw, from [w]. *)
Definition created_ids (draws : list (N * string)) (w : World) : list string :=
  match create_all draws w with
  | (Returned ids, _) => ids
  | (Threw, _) => []
  end.

(** What a create call's identifier is made from: the clock value and
    the nine characters kept of the random text. *)
Definition id_source (draw : N * string) : N * string :=
  (draw.1, JS.substr 2 9 draw.2).

(** The identifier made from such a pair. *)
Definition id_of_source (source : N * string) : string :=
  "session_" +:+ pretty source.1 +:+ "_" +:+ source.2.

(** A request field that is absent or empty. *)
Definition missing (field : option string) : Prop := JS.truthy field = false.

(** A relay request no handler should act on: a field is missing, or the
    language is not a supported one. *)
Definition malformed (b : RelayBody) : Prop :=
  missing (sessionId b) ∨ missing (message b) ∨ missing (targetLang b)
  ∨ ¬ supported (JS.or_empty (targetLang b)).

(** A language that [targetLang in langName] turns down: not a supported
    code, and not a property name the table inherits. *)
Definition unknown_language (lang : string) : Prop :=
  ¬ supported lang ∧ lang ∉ inherited_names.

(** A relay request the first check of the handlers turns down. *)
Definition unacceptable (b : RelayBody) : Prop :=
  missing (sessionId b) ∨ missing (message b) ∨ missing (targetLang b)
  ∨ unknown_language (JS.or_empty (targetLang b)).

(** A text made of decimal digits. *)
Fixpoint digits (s : string) : Prop :=
  match s with
  | EmptyString => True
  | String c s' => is_Some (Ascii.is_nat c) ∧ digits s'
  end.

(** A call that ends with [status] and leaves the world as it was: no
    session is changed and upstream is not called. *)
Definition refused_with (status_code : nat) (call : Call) (w : World) : Prop :=
  ∃ r, handle call w = (Returned r, w) ∧ status r = status_code.

(** ** The sentences of the specification that the code departs from,
    as they are worded *)

Module AsStated.

(** The most recent continuation token, when one exists, is the one
    passed as prior context on the next upstream call. *)
Definition continuation_invariant : Prop :=
  ∀ (cs : list Call) (sid : string) (c : Conversation),
    conversations (after_all cs initial_world) !! sid = Some c →
    continuity c
    ∧ ∀ call streaming env b t p,
        relay_of call = Some (streaming, env, b) → sessionId b = Some sid →
        last (responseIds c) = Some t →
        p ∈ issued call (after_all cs initial_world) →
        previous_response_id p = Some t.

(** The chunks enqueued are exactly the delta payloads of the
    text-delta events, and their concatenation is the committed text. *)
Definition stream_forwards_deltas
    (pre : list StreamEvent) (d : StreamEvent) (post : list Pull) : Prop :=
  ∀ env b w sid text c openai r w',
    invalid_request b = false → configured env →
    sessionId b = Some sid → message b = Some text →
    conversations w !! sid = Some c →
    openai (request_for true b c) = Resolved ((Yield <$> pre) ++ Yield d :: post) →
    Forall quiet pre → is_done d = true →
    handleStreamMessage env b openai w = (Returned r, w') →
    ∃ ch, body r = TextStream ch
      ∧ chunks ch = encode <$> delta_payloads pre
      ∧ ∀ c', conversations w' !! sid = Some c' →
          c' = with_user_turn text c
          ∨ ∃ id reply, c' = with_reply text id reply c
              ∧ encode reply = mjoin (chunks ch).

(** A malformed request, or one for an unknown session, fails with
    400 or 404 before any mutation or upstream call. *)
Definition refusal_precedes_effects (call : Call) (w : World) : Prop :=
  ∀ streaming env b,
    relay_of call = Some (streaming, env, b) →
    (malformed b → refused_with 400 call w)
    ∧ (¬ malformed b →
       conversations w !! JS.or_empty (sessionId b) = None →
       refused_with 404 call w).

(** The upstream request carries the session's last continuation
    token as it stood when the call began, and none on a session
    without tokens. *)
Definition prior_context_is_last_token : Prop :=
  ∀ (cs : list Call) call streaming env b sid c p,
    relay_of call = Some (streaming, env, b) → sessionId b = Some sid →
    conversations (after_all cs initial_world) !! sid = Some c →
    p ∈ issued call (after_all cs initial_world) →
    previous_response_id p = last (responseIds c).

(** N create calls yield N pairwise-distinct identifiers. *)
Definition identifiers_never_reused : Prop :=
  ∀ (draws : list (N * string)) (w : World),
    length (created_ids draws w) = length draws ∧ NoDup (created_ids draws w).

End AsStated.

(** A world, requests and upstream answers to try the handlers on. *)
Module Sample.

Definition env : WorkerEnv := {| OPENAI_API_KEY := Some "sk-test" |}.

Definition no_key : WorkerEnv := {| OPENAI_API_KEY := None |}.

Definition request (sid text lang : string) : RelayBody :=
  {| sessionId := Some sid; message := Some text; targetLang := Some lang;
     temperature := None; maxTokens := None |}.

Definition sid : string := new_sessionId 1700000000000 "0.4fzyo82mvyr".

Definition started : World :=
  after (StartConversation 1700000000000 "0.4fzyo82mvyr") initial_world.

Definition answers (id text : string) : CreateParams → Settled UpstreamResponse :=
  λ _, Resolved {| response_id := id; output_text := Some text |}.

Definition created (id : string) : StreamEvent :=
  {| event_type := "response.created"; event_delta := None;
     event_response := Some {| event_response_id := Some id;
                               event_response_error := false |} |}.

Definition delta (text : string) : StreamEvent :=
  {| event_type := "response.output_text.delta"; event_delta := Some text;
     event_response := None |}.

Definition done : StreamEvent :=
  {| event_type := "response.output_text.done"; event_delta := None;
     event_response := None |}.

Definition emits (items : list Pull) : CreateParams → Settled (list Pull) :=
  λ _, Resolved items.

(** A first exchange on the started session, answered with identifier
    [id]; and the world after it. *)
Definition first (id : string) : Call :=
  SendMessage env (request sid "Hello" "fr") (answers id "Bonjour").

Definition after_first (id : string) : World :=
  after_all [StartConversation 1700000000000 "0.4fzyo82mvyr"; first id]
    initial_world.

Definition exchanged (id : string) : Conversation :=
  {| responseIds := [id];
     messages := [user_turn "Hello"; assistant_turn "Bonjour"] |}.

(** A second message on the same session, sync and streaming. *)
Definition again : RelayBody := request sid "Merci" "fr".

Definition second : Call := SendMessage env again (answers "r2" "De rien").

Definition second_streamed : Call :=
  StreamMessage env again
    (emits [Yield (created "r2"); Yield (delta "De rien"); Yield done]).

(** The streamed reply of the specification's scenario, with an empty
    delta in its middle. *)
Definition bonjour : list StreamEvent :=
  [created "r1"; delta "Bon"; delta ""; delta "jour"].

Definition hello : RelayBody := request sid "Hello" "fr".

Definition fresh : Conversation := {| responseIds := []; messages := [] |}.

(** Upstream streams: the scenario's reply, completed; a reply that is
    completed without a creation event; a reply cut short. *)
Definition completes : CreateParams → Settled (list Pull) :=
  emits ((Yield <$> bonjour) ++ [Yield done]).

Definition unnamed : list StreamEvent := [delta "Bon"; delta "jour"].

Definition completes_unnamed : CreateParams → Settled (list Pull) :=
  emits ((Yield <$> unnamed) ++ [Yield done]).

Definition cut_short : list StreamEvent := [created "r1"; delta "Bon"].

(** Requests to refuse: an unknown language; a missing credential; an
    unknown session. And one the language check lets through although
    its language is not a supported one. *)
Definition in_klingon : Call :=
  SendMessage env (request sid "Hello" "tlh") (answers "r1" "nuqneH").

Definition elsewhere : RelayBody := request "session_0_none" "Hello" "fr".

Definition without_key : Call := StreamMessage no_key elsewhere completes.

Definition to_nowhere : Call := StreamMessage env elsewhere completes.

Definition in_toString : RelayBody := request sid "Hello" "toString".

Definition inherited : Call := SendMessage env in_toString (answers "r1" "Bonjour").

End Sample.

(** ** The store across calls *)

(** The identifier a call binds to a new session, if it is a create
    call. *)
Definition creates (c : Call) : option string :=
  match c with
  | StartConversation now random36 => Some (new_sessionId now random36)
  | SendMessage _ _ _ | StreamMessage _ _ _ => None
  end.

(** ** White space around a text *)

(** A text, as its bytes, that begins, or ends, with a white space
    character. *)
Definition led_by_space (l : list ascii) : Prop :=
  is_Some (JS.strip_any JS.white_space l).

Definition trailed_by_space (l : list ascii) : Prop :=
  is_Some (JS.strip_any (map (@rev ascii) JS.white_space) (rev l)).

(** A text made of white space characters only. *)
Definition white_spaces (l : list ascii) : Prop :=
  ∃ ps, Forall (λ p, p ∈ JS.white_space) ps ∧ l = concat ps.

(** ** The streaming relay, however the loop is left *)

(** What [controller.error] makes of a channel. *)
Definition errored (ch : Channel) : Channel :=
  {| chunks := chunks ch;
     channel_state := match channel_state ch with
                      | Readable => Errored
                      | st => st
                      end |}.

(** The channel the caller is left with, and the conversation the
    session is left with, when the loop ended as [o] with the channel as
    [ch]: an exception is caught and errors the channel; a reply is
    committed only after the iteration ended or a [break], and only
    under an identifier. *)
Definition left_channel (o : Outcome (LoopExit * Pending)) (ch : Channel)
  : Channel :=
  match o with
  | Threw => errored ch
  | Returned _ => ch
  end.

Definition left_conversation (o : Outcome (LoopExit * Pending))
    (text : string) (c : Conversation) : Conversation :=
  match o with
  | Threw | Returned (ReturnedEarly, _) => with_user_turn text c
  | Returned (_, p) =>
      if JS.truthy (Some (responseId p))
      then with_reply text (responseId p) (fullResponse p) c
      else with_user_turn text c
  end.

(** The state of the channel after a loop left as [o]. *)
Definition exit_state (o : Outcome (LoopExit * Pending)) : ChannelState :=
  match o with
  | Returned (Broke, _) => Closed
  | Returned (ReturnedEarly, _) => Errored
  | Returned (Exhausted, _) | Threw => Readable
  end.

(** The variables of [start] and the channel when the loop begins. *)
Definition pending0 : Pending := {| fullResponse := ""; responseId := "" |}.

Definition channel0 : Channel := {| chunks := []; channel_state := Readable |}.

(** Further upstream streams to try the streaming relay on. *)
Module SampleStream.

Definition failing : StreamEvent :=
  {| event_type := "response.failed"; event_delta := None;
     event_response := Some {| event_response_id := Some "r1";
                               event_response_error := true |} |}.

(** A reply that fails after its first delta, and one whose connection
    drops there. *)
Definition fails : CreateParams → Settled (list Pull) :=
  Sample.emits ((Yield <$> Sample.cut_short) ++ [Yield failing; Yield Sample.done]).

Definition drops : CreateParams → Settled (list Pull) :=
  Sample.emits ((Yield <$> Sample.cut_short) ++ [IterThrow]).

(** The first exchange of [Sample.first], streamed: a reply completed
    under the identifier [id]. *)
Definition first_streamed (id : string) : Call :=
  StreamMessage Sample.env Sample.hello
    (Sample.emits [Yield (Sample.created id); Yield (Sample.delta "Bonjour");
                   Yield Sample.done]).

End SampleStream.

(** ** Response headers and the router *)

Module Headers.

(** Header names are compared without regard to the case of ASCII
    letters. *)
Definition lower (c : ascii) : ascii :=
  let n := N_of_ascii c in
  if (65 <=? n)%N && (n <=? 90)%N then ascii_of_N (n + 32) else c.

Fixpoint lowercase (s : string) : string :=
  match s with
  | EmptyString => EmptyString
  | String c s' => String (lower c) (lowercase s')
  end.

(** A [Headers] object as [get], [set], [append] and its iteration show
    it: a value for each lower-cased name, the values appended under one
    name combined. Names and values are taken to be valid and
    normalised, as those of this worker are; [Set-Cookie], which the
    worker never sets, gets no treatment of its own. *)
Definition get (name : string) (h : gmap string string) : option string :=
  h !! lowercase name.

Definition set (name value : string) (h : gmap string string)
  : gmap string string :=
  <[lowercase name := value]> h.

Definition append (name value : string) (h : gmap string string)
  : gmap string string :=
  match h !! lowercase name with
  | Some v => <[lowercase name := v +:+ ", " +:+ value]> h
  | None => <[lowercase name := value]> h
  end.

(** [new Headers(init)], [init] a sequence of pairs. *)
Definition of_list (init : list (string * string)) : gmap string string :=
  foldl (λ h nv, append nv.1 nv.2 h) ∅ init.

Definition by_name (a b : string * string) : Prop := String.le a.1 b.1.

Global Instance by_name_dec : RelDecision by_name.
Proof. intros a b. unfold by_name. apply _. Defined.

(** The pairs the iteration of the object yields: sorted by name. *)
Definition entries (h : gmap string string) : list (string * string) :=
  merge_sort by_name (map_to_list h).

End Headers.

(** The names of a [Headers] object are lower-cased ones. *)
Definition lowercased (h : gmap string string) : Prop :=
  ∀ k v, h !! k = Some v → Headers.lowercase k = k.

(** [response.headers.get(name)], the headers of a response being the
    object made from the pairs its constructor was given. *)
Definition header (name : string) (init : list (string * string))
  : option string :=
  Headers.get name (Headers.of_list init).

Definition corsHeaders : list (string * string) :=
  [ ("Access-Control-Allow-Origin", "*");
    ("Access-Control-Allow-Methods", "GET, POST, PUT, DELETE, OPTIONS");
    ("Access-Control-Allow-Headers", "Content-Type") ].

(** A name that, read without regard to case, is one of the three. *)
Definition cors_name (name : string) : Prop :=
  ∃ kv, kv ∈ corsHeaders ∧ Headers.lowercase name = Headers.lowercase kv.1.

(** The status text of a response is not part of [Response]: no response
    of the worker sets one. *)
Definition addCorsHeaders (response : Response) : Response :=
  let newHeaders :=
    Headers.of_list (Headers.entries (Headers.of_list (headers response))) in
  let newHeaders :=
    foldl (λ h kv, Headers.set kv.1 kv.2 h) newHeaders corsHeaders in
  {| status := status response;
     headers := Headers.entries newHeaders;
     body := body response |}.

(** What [await request.json()] gives a handler to destructure: nothing
    (the promise rejects: no body, or not JSON); [null], which cannot be
    destructured; or a value, seen through the properties read of it. *)
Inductive Parsed :=
| Unparsable
| Null
| Fields (b : RelayBody).

(** A request: [request.method], [new URL(request.url).pathname], and
    what its body parses to. *)
Record Request := {
  request_method : string;
  request_pathname : string;
  request_json : Parsed
}.

(** What the surroundings answer while one request is served. *)
Record Outside := {
  date_now : N;
  math_random : string;
  create_response : CreateParams → Settled UpstreamResponse;
  create_stream : CreateParams → Settled (list Pull)
}.

(** The first statement of both relay handlers. *)
Definition read_body (request : Request) : M World RelayBody :=
  match request_json request with
  | Fields b => ret b
  | Unparsable | Null => throw
  end.

(** A response of the worker; the body of the preflight answer is
    [null]. *)
Record Served := {
  served_status : nat;
  served_headers : list (string * string);
  served_body : option ResponseBody
}.

Definition serve (r : Response) : Served :=
  {| served_status := status r;
     served_headers := headers r;
     served_body := Some (body r) |}.

Definition fetch (request : Request) (env : WorkerEnv) (o : Outside)
  : M World Served :=
  let path := request_pathname request in
  let method := request_method request in
  if String.eqb method "OPTIONS" then
    ret {| served_status := 200;
           served_headers := corsHeaders;
           served_body := None |}
  else
    try_catch
      (if String.eqb path "/api/conversation/start" && String.eqb method "POST" then
         let* r := handleStartConversation (date_now o) (math_random o) in
         ret (serve (addCorsHeaders r))
       else if String.eqb path "/api/conversation/message"
               && String.eqb method "POST" then
         let* b := read_body request in
         let* r := handleMessage env b (create_response o) in
         ret (serve (addCorsHeaders r))
       else if String.eqb path "/api/conversation/message/stream"
               && String.eqb method "POST" then
         let* b := read_body request in
         let* r := handleStreamMessage env b (create_stream o) in
         ret (serve (addCorsHeaders r))
       else
         ret (serve (addCorsHeaders (json 404 (JsonError "Not found")))))
      (ret (serve (addCorsHeaders (json 500 (JsonError "Internal server error"))))).

(** The three routes. *)
Definition routed (request : Request) : Prop :=
  request_method request = "POST"
  ∧ (request_pathname request = "/api/conversation/start"
     ∨ request_pathname request = "/api/conversation/message"
     ∨ request_pathname request = "/api/conversation/message/stream").

(** The handler call a request is routed to, when it is routed to one
    and, for the relays, its body can be destructured. *)
Definition dispatched (request : Request) (env : WorkerEnv) (o : Outside)
  : option Call :=
  let path := request_pathname request in
  if String.eqb (request_method request) "POST" then
    if String.eqb path "/api/conversation/start" then
      Some (StartConversation (date_now o) (math_random o))
    else if String.eqb path "/api/conversation/message" then
      match request_json request with
      | Fields b => Some (SendMessage env b (create_response o))
      | Unparsable | Null => None
      end
    else if String.eqb path "/api/conversation/message/stream" then
      match request_json request with
      | Fields b => Some (StreamMessage env b (create_stream o))
      | Unparsable | Null => None
      end
    else None
  else None.

(** The two relay routes. *)
Definition relay_route (request : Request) : Prop :=
  request_method request = "POST"
  ∧ (request_pathname request = "/api/conversation/message"
     ∨ request_pathname request = "/api/conversation/message/stream").

(** A response that carries the three cross-origin headers, under any
    spelling of their names. *)
Definition carries_cors (hs : list (string * string)) : Prop :=
  ∀ name value spelling,
    (name, value) ∈ corsHeaders →
    Headers.lowercase spelling = Headers.lowercase name →
    header spelling hs = Some value.

Module SampleRequest.

Definition outside : Outside :=
  {| date_now := 1700000000000;
     math_random := "0.4fzyo82mvyr";
     create_response := Sample.answers "r1" "  Bonjour ";
     create_stream := Sample.completes |}.

(** The upstream API cannot be reached. *)
Definition cut_off : Outside :=
  {| date_now := 1700000000000;
     math_random := "0.4fzyo82mvyr";
     create_response := λ _, Rejected;
     create_stream := λ _, Rejected |}.

Definition post (path : string) (json : Parsed) : Request :=
  {| request_method := "POST"; request_pathname := path; request_json := json |}.

Definition get (path : string) : Request :=
  {| request_method := "GET"; request_pathname := path; request_json := Unparsable |}.

Definition hello : Request :=
  post "/api/conversation/message" (Fields Sample.hello).

End SampleRequest.

(** * Properties *)

(** ** The model at work *)

Example trim_strips_both_ends :
  JS.trim ("  Bonjour " +:+ JS.nl) = "Bonjour"
  ∧ JS.trim (JS.nl +:+ "au revoir") = "au revoir"
  ∧ JS.trim (String.string_of_list_ascii (JS.bytes [194; 160; 227; 128; 128]%N)
             +:+ "x" +:+ String.string_of_list_ascii (JS.bytes [226; 128; 168]%N))
    = "x".
Proof. repeat split; vm_compute; reflexivity. Qed.

Example in_sees_inherited_names :
  JS.has_property langName "ja" = true
  ∧ JS.has_property langName "tlh" = false
  ∧ JS.has_property langName "toString" = true
  ∧ JS.has_own langName "toString" = false.
Proof. repeat split; vm_compute; reflexivity. Qed.

Example sample_identifier : Sample.sid = "session_1700000000000_4fzyo82mv".
Proof. vm_compute. reflexivity. Qed.

Lemma sample_started :
  conversations Sample.started !! Sample.sid = Some Sample.fresh.
Proof. vm_compute. reflexivity. Qed.

Lemma sample_hello_valid : invalid_request Sample.hello = false.
Proof. vm_compute. reflexivity. Qed.

(** ** Request validation *)

Lemma truthy_Some (s : string) : s ≠ "" → JS.truthy (Some s) = true.
Proof.
  intros Hs. unfold JS.truthy.
  destruct (String.eqb_spec s "") as [->|_]; [done | reflexivity].
Qed.

Lemma truthy_inv (o : option string) :
  JS.truthy o = true → ∃ s, o = Some s ∧ s ≠ "".
Proof.
  destruct o as [s|]; simpl; [|discriminate].
  destruct (String.eqb_spec s "") as [->|Hs]; [discriminate | eauto].
Qed.

Lemma assoc_None {A} (k : string) (l : list (string * A)) :
  JS.assoc k l = None ↔ k ∉ l.*1.
Proof.
  induction l as [|[k' v] l IH]; simpl.
  - split; [intros _; apply not_elem_of_nil | done].
  - destruct (String.eqb_spec k k') as [->|Hne].
    + split; [discriminate | intros []; apply list_elem_of_here].
    + rewrite IH, not_elem_of_cons. tauto.
Qed.

Lemma supported_has_own (lang : string) :
  supported lang ↔ JS.has_own langName lang = true.
Proof.
  split.
  - intros [l ->]. by destruct l.
  - unfold JS.has_own. rewrite bool_decide_eq_true. intros [v Hv].
    unfold langName in Hv; simpl in Hv.
    repeat match type of Hv with
    | context [String.eqb lang ?k] =>
        destruct (String.eqb_spec lang k) as [->|_]
    end; try discriminate.
    + by exists en.
    + by exists fr.
    + by exists es.
    + by exists ja.
    + by exists ar.
Qed.

(** [targetLang in langName] holds exactly of the supported codes and of
    the inherited property names. *)
Lemma has_property_langName (lang : string) :
  JS.has_property langName lang = true ↔ supported lang ∨ lang ∈ inherited_names.
Proof.
  rewrite supported_has_own. unfold JS.has_property, JS.has_own, inherited_names.
  destruct (JS.assoc lang langName) as [v|] eqn:Hown.
  - split; [intros _; left | done]. rewrite bool_decide_eq_true. eauto.
  - rewrite !bool_decide_eq_true. split.
    + intros Hin. right. apply dec_stable. intros Hn.
      apply assoc_None in Hn. rewrite Hn in Hin. by destruct Hin.
    + intros [[? [=]]|Hin].
      destruct (JS.assoc lang JS.object_prototype) eqn:Hp; [eauto|].
      apply assoc_None in Hp. done.
Qed.

Lemma valid_request (b : RelayBody) (sid text lang : string) :
  sessionId b = Some sid → message b = Some text → targetLang b = Some lang →
  sid ≠ "" → text ≠ "" → supported lang →
  invalid_request b = false.
Proof.
  intros Hs Hm Hl ? ? Hsup. unfold invalid_request.
  rewrite Hs, Hm, Hl, !truthy_Some; [simpl | by destruct Hsup as [[] ->] | done..].
  destruct Hsup as [l ->]. by destruct l.
Qed.

Lemma invalid_request_false (b : RelayBody) :
  invalid_request b = false →
  ∃ sid text lang,
    sessionId b = Some sid ∧ message b = Some text ∧ targetLang b = Some lang
    ∧ sid ≠ "" ∧ text ≠ "" ∧ lang ≠ ""
    ∧ JS.has_property langName lang = true.
Proof.
  unfold invalid_request. rewrite !orb_false_iff, !negb_false_iff.
  intros [[[Hs Hm] Hl] Hp].
  apply truthy_inv in Hs as (sid & Hs & ?), Hm as (text & Hm & ?),
    Hl as (lang & Hl & ?).
  rewrite Hl in Hp. by exists sid, text, lang.
Qed.

(** ** The handlers, run *)

Section relay_runs.

Context (env : WorkerEnv) (b : RelayBody) (w : World).

Lemma handleMessage_invalid openai :
  invalid_request b = true →
  handleMessage env b openai w
  = (Returned (json 400 (JsonError "Invalid request")), w).
Proof. intros H. unfold handleMessage. by rewrite H. Qed.

Lemma handleMessage_no_key openai :
  invalid_request b = false → ¬ configured env →
  handleMessage env b openai w
  = (Returned (json 500 (JsonError "Server missing OpenAI API key")), w).
Proof.
  intros H Hk. unfold handleMessage. rewrite H.
  apply not_true_is_false in Hk. by rewrite Hk.
Qed.

Lemma handleMessage_not_found openai :
  invalid_request b = false → configured env →
  conversations w !! JS.or_empty (sessionId b) = None →
  handleMessage env b openai w
  = (Returned (json 404 (JsonError "Conversation not found")), w).
Proof.
  intros H Hk Hc. unfold handleMessage. rewrite H, Hk. simpl.
  unfold bind, conversations_get, gets. by rewrite Hc.
Qed.

Lemma handleStreamMessage_invalid openai :
  invalid_request b = true →
  handleStreamMessage env b openai w
  = (Returned (json 400 (JsonError "Invalid request")), w).
Proof. intros H. unfold handleStreamMessage. by rewrite H. Qed.

Lemma handleStreamMessage_no_key openai :
  invalid_request b = false → ¬ configured env →
  handleStreamMessage env b openai w
  = (Returned (json 500 (JsonError "Server missing OpenAI API key")), w).
Proof.
  intros H Hk. unfold handleStreamMessage. rewrite H.
  apply not_true_is_false in Hk. by rewrite Hk.
Qed.

Lemma handleStreamMessage_not_found openai :
  invalid_request b = false → configured env →
  conversations w !! JS.or_empty (sessionId b) = None →
  handleStreamMessage env b openai w
  = (Returned (json 404 (JsonError "Conversation not found")), w).
Proof.
  intros H Hk Hc. unfold handleStreamMessage. rewrite H, Hk. simpl.
  unfold bind, conversations_get, gets. by rewrite Hc.
Qed.

Context (sid text : string) (c : Conversation).
Hypothesis (Hvalid : invalid_request b = false) (Hkey : configured env).
Hypothesis (Hsid : sessionId b = Some sid) (Htext : message b = Some text).
Hypothesis (Hfound : conversations w !! sid = Some c).

Lemma handleMessage_resolved openai r :
  openai (request_for false b c) = Resolved r →
  handleMessage env b openai w
  = (Returned (json 200 (JsonMessage (reply_text r) (response_id r))),
     {| conversations :=
          <[sid := with_reply text (response_id r) (reply_text r) c]> (conversations w);
        upstream_calls := upstream_calls w ++ [request_for false b c] |}).
Proof.
  intros Hup. unfold handleMessage. rewrite Hvalid, Hkey, Hsid, Htext. simpl.
  unfold bind, conversations_get, gets. rewrite Hfound. simpl.
  rewrite lookup_alter_eq, Hfound. simpl.
  unfold responses_create, bind, modify; simpl.
  unfold request_for in Hup. rewrite Hup. simpl. unfold ret.
  rewrite !alter_alter_eq, (alter_alt_Some _ _ _ _ Hfound). simpl.
  unfold with_reply, reply_text. by rewrite <-(assoc_L (++)).
Qed.

End relay_runs.

(** ** Strings and chunks *)

Lemma string_app_cons (x : ascii) (a b : string) :
  String x a +:+ b = String x (a +:+ b).
Proof. reflexivity. Qed.

Lemma string_app_nil_l (a : string) : "" +:+ a = a.
Proof. reflexivity. Qed.

Lemma string_app_assoc (a b c : string) : (a +:+ b) +:+ c = a +:+ b +:+ c.
Proof.
  induction a as [|x a IH]; [done|]. by rewrite !string_app_cons, IH.
Qed.

Lemma string_app_nil_r (a : string) : a +:+ "" = a.
Proof. induction a as [|x a IH]; [done|]. by rewrite string_app_cons, IH. Qed.

Lemma encode_app (a b : string) : encode (a +:+ b) = encode a ++ encode b.
Proof.
  unfold encode, String.list_byte_of_string.
  induction a as [|x a IH]; [done|]. rewrite string_app_cons. cbn. by rewrite IH.
Qed.

Lemma join_cons (a : string) (l : list string) : join (a :: l) = a +:+ join l.
Proof. reflexivity. Qed.

(** Dropping the empty payloads does not change the text. *)
Lemma join_filter_nonempty (l : list string) : join (filter nonempty l) = join l.
Proof.
  induction l as [|a l IH]; [done|].
  rewrite filter_cons. destruct (decide (nonempty a)) as [|Hn].
  - by rewrite !join_cons, IH.
  - apply dec_stable in Hn. by rewrite join_cons, IH, Hn.
Qed.

(** The bytes of the chunks, put end to end, are the bytes of the text. *)
Lemma concat_encode (l : list string) : mjoin (encode <$> l) = encode (join l).
Proof.
  induction l as [|a l IH]; [done|].
  rewrite fmap_cons, join_cons, encode_app, <-IH. reflexivity.
Qed.

(** ** The [for await] loop *)

Lemma done_not_created (event : StreamEvent) :
  is_done event = true → is_created event = false ∧ is_delta event = false.
Proof.
  unfold is_done, is_created, is_delta.
  destruct (String.eqb_spec (event_type event) "response.output_text.done")
    as [->|]; [done | discriminate].
Qed.

(** The loop never touches the world. *)
Lemma for_await_world (items : list Pull) p w ch :
  ∃ o ch', for_await items p (w, ch) = (o, (w, ch')).
Proof.
  revert p ch. induction items as [|[event|] items IH]; intros p ch.
  - by eexists _, _.
  - cbn. unfold bind.
    destruct (is_delta event && JS.truthy (event_delta event)); cbn.
    + unfold bind, controller_enqueue. destruct (channel_state ch) eqn:Hst; cbn.
      2,3: by eexists _, _.
      destruct (is_done event); cbn; [by eexists _, _|].
      destruct (has_error event); cbn; [by eexists _, _|]. apply IH.
    + destruct (is_done event); cbn.
      { unfold bind, controller_close. destruct (channel_state ch); by eexists _, _. }
      destruct (has_error event); cbn.
      { unfold bind, controller_error, modify.
        destruct (channel_state ch); by eexists _, _. }
      apply IH.
  - by eexists _, _.
Qed.

(** Over a prefix of quiet events the loop accumulates the payloads,
    forwards the non-empty ones and keeps the last identifier. *)
Lemma for_await_quiet (pre : list StreamEvent) (rest : list Pull) p w ch :
  Forall quiet pre → channel_state ch = Readable →
  for_await ((Yield <$> pre) ++ rest) p (w, ch)
  = for_await rest
      {| fullResponse := fullResponse p +:+ join (delta_payloads pre);
         responseId := captured_id pre (responseId p) |}
      (w, {| chunks := chunks ch ++ forwarded pre; channel_state := Readable |}).
Proof.
  intros Hq. revert p ch.
  induction Hq as [|event pre [Hdone Herr] _ IH]; intros p [cs st] Hst;
    simpl in Hst; subst st.
  - cbn. rewrite string_app_nil_r. unfold forwarded; cbn. rewrite app_nil_r.
    by destruct p.
  - cbn [fmap list_fmap app for_await]. rewrite Hdone, Herr.
    unfold forwarded. cbn [delta_payloads captured_id].
    set (p1 := if is_created event then _ else p).
    assert (fullResponse p1 = fullResponse p) as Hfull
      by (subst p1; by destruct (is_created event)).
    assert (responseId p1
            = if is_created event
              then JS.or_empty (r ← event_response event; event_response_id r)
              else responseId p) as Hid
      by (subst p1; by destruct (is_created event)).
    rewrite <-Hid. clearbody p1.
    destruct (is_delta event) eqn:Hd; cbn [andb].
    + destruct (event_delta event) as [d|] eqn:Hdelta; cbn [JS.truthy].
      * destruct (String.eqb_spec d "") as [->|Hne]; cbn [negb].
        -- unfold bind at 1, ret at 1. rewrite IH by done.
           rewrite filter_cons_False by (by intros []).
           by rewrite join_cons, string_app_nil_l, Hfull.
        -- unfold bind at 1 2, controller_enqueue, ret at 1.
           cbn [channel_state chunks]. rewrite IH by done.
           rewrite filter_cons_True by done.
           cbn [fullResponse responseId JS.or_empty chunks].
           rewrite join_cons, fmap_cons, string_app_assoc, <-(assoc_L (++)), Hfull.
           done.
      * unfold bind at 1, ret at 1. rewrite IH by done. by rewrite Hfull.
    + unfold bind at 1, ret at 1. rewrite IH by done. rewrite Hfull.
      by destruct (event_delta event).
Qed.

(** ** The relay handlers, run to the end *)

Section relay_found.

Context (env : WorkerEnv) (b : RelayBody) (w : World).
Context (sid text : string) (c : Conversation).
Hypothesis (Hvalid : invalid_request b = false) (Hkey : configured env).
Hypothesis (Hsid : sessionId b = Some sid) (Htext : message b = Some text).
Hypothesis (Hfound : conversations w !! sid = Some c).

Lemma handleMessage_rejected openai :
  openai (request_for false b c) = Rejected →
  handleMessage env b openai w
  = (Threw,
     {| conversations := <[sid := with_user_turn text c]> (conversations w);
        upstream_calls := upstream_calls w ++ [request_for false b c] |}).
Proof.
  intros Hup. unfold handleMessage. rewrite Hvalid, Hkey, Hsid, Htext. simpl.
  unfold bind, conversations_get, gets. rewrite Hfound. simpl.
  rewrite lookup_alter_eq, Hfound. simpl.
  unfold responses_create, bind, modify; simpl.
  unfold request_for in Hup. rewrite Hup. simpl. unfold throw.
  by rewrite (alter_alt_Some _ _ _ _ Hfound).
Qed.

(** The streaming handler, up to the loop. *)
Lemma handleStreamMessage_unfold openai :
  handleStreamMessage env b openai w
  = bind (new_ReadableStream (start sid (request_for true b c) openai))
         (λ ch, ret (text_stream ch))
         {| conversations := <[sid := with_user_turn text c]> (conversations w);
            upstream_calls := upstream_calls w |}.
Proof.
  unfold handleStreamMessage. rewrite Hvalid, Hkey, Hsid, Htext. simpl.
  unfold bind at 1, conversations_get, gets. rewrite Hfound.
  unfold bind at 1, push_message, modify.
  unfold bind at 1, last_responseId, gets. cbn [conversations].
  rewrite lookup_alter_eq, Hfound. cbn [fmap option_fmap option_map mbind option_bind].
  by rewrite (alter_alt_Some _ _ _ _ Hfound).
Qed.

Lemma handleStreamMessage_rejected openai :
  openai (request_for true b c) = Rejected →
  handleStreamMessage env b openai w
  = (Returned (text_stream {| chunks := []; channel_state := Errored |}),
     {| conversations := <[sid := with_user_turn text c]> (conversations w);
        upstream_calls := upstream_calls w ++ [request_for true b c] |}).
Proof.
  intros Hup. rewrite handleStreamMessage_unfold.
  unfold bind, new_ReadableStream, start, try_catch, on_world, responses_create,
    bind, modify. cbn. by rewrite Hup.
Qed.

(** The loop was left by [break] or by the end of the iteration after
    the quiet events [pre], with the channel in state [st]. *)
Lemma handleStreamMessage_settled openai items pre exit st :
  openai (request_for true b c) = Resolved items →
  exit ≠ ReturnedEarly →
  (∀ w0,
     for_await items {| fullResponse := ""; responseId := "" |}
       (w0, {| chunks := []; channel_state := Readable |})
     = (Returned (exit, {| fullResponse := join (delta_payloads pre);
                           responseId := captured_id pre "" |}),
        (w0, {| chunks := forwarded pre; channel_state := st |}))) →
  handleStreamMessage env b openai w
  = (Returned (text_stream {| chunks := forwarded pre; channel_state := st |}),
     {| conversations := <[sid := settled pre text c]> (conversations w);
        upstream_calls := upstream_calls w ++ [request_for true b c] |}).
Proof.
  intros Hup Hexit Hloop. rewrite handleStreamMessage_unfold.
  unfold bind at 1, new_ReadableStream, start, try_catch.
  unfold bind at 1, on_world, responses_create. unfold bind at 1, modify.
  cbn [conversations upstream_calls]. rewrite Hup. unfold ret at 1.
  unfold bind at 1. rewrite Hloop.
  unfold settled, JS.truthy. cbn [responseId fullResponse].
  destruct (String.eqb_spec (captured_id pre "") "") as [Hid|Hid].
  - rewrite decide_True by done. by destruct exit.
  - rewrite decide_False by done.
    assert (∀ B (k1 k2 : B), match exit with ReturnedEarly => k1 | _ => k2 end = k2)
      as -> by (by destruct exit).
    cbn. unfold bind, push_responseId, push_message, modify, ret. cbn.
    rewrite alter_alter_eq, alter_insert_eq. cbn.
    unfold with_reply, with_user_turn. cbn.
    by rewrite <-(assoc_L (++)).
Qed.

(** The upstream stream reaches a completion event [d] after the quiet
    events [pre]. *)
Lemma handleStreamMessage_completed openai pre d post :
  openai (request_for true b c) = Resolved ((Yield <$> pre) ++ Yield d :: post) →
  Forall quiet pre → is_done d = true →
  handleStreamMessage env b openai w
  = (Returned (text_stream {| chunks := forwarded pre; channel_state := Closed |}),
     {| conversations := <[sid := settled pre text c]> (conversations w);
        upstream_calls := upstream_calls w ++ [request_for true b c] |}).
Proof.
  intros Hup Hq Hd. eapply (handleStreamMessage_settled _ _ pre Broke); [exact Hup | done |].
  intros w0. rewrite for_await_quiet by done.
  destruct (done_not_created d Hd) as [Hc Hdl].
  cbn [for_await]. rewrite Hc, Hdl, Hd. reflexivity.
Qed.

(** The upstream stream ends after the quiet events [pre]. *)
Lemma handleStreamMessage_truncated openai pre :
  openai (request_for true b c) = Resolved (Yield <$> pre) →
  Forall quiet pre →
  handleStreamMessage env b openai w
  = (Returned (text_stream {| chunks := forwarded pre; channel_state := Readable |}),
     {| conversations := <[sid := settled pre text c]> (conversations w);
        upstream_calls := upstream_calls w ++ [request_for true b c] |}).
Proof.
  intros Hup Hq. eapply (handleStreamMessage_settled _ _ pre Exhausted); [exact Hup | done |].
  intros w0. rewrite <-(app_nil_r (Yield <$> pre)).
  rewrite for_await_quiet by done. reflexivity.
Qed.

Lemma handleMessage_effect openai :
  ∃ c', extends text c c'
    ∧ snd (handleMessage env b openai w)
      = {| conversations := <[sid := c']> (conversations w);
           upstream_calls := upstream_calls w ++ [request_for false b c] |}.
Proof.
  destruct (openai (request_for false b c)) as [r|] eqn:Hup.
  - rewrite (handleMessage_resolved _ _ _ sid text c) with (r := r) by done.
    eexists; split; [right; eauto | done].
  - rewrite handleMessage_rejected by done.
    eexists; split; [by left | done].
Qed.

Lemma handleStreamMessage_effect openai :
  ∃ c', extends text c c'
    ∧ snd (handleStreamMessage env b openai w)
      = {| conversations := <[sid := c']> (conversations w);
           upstream_calls := upstream_calls w ++ [request_for true b c] |}.
Proof.
  rewrite handleStreamMessage_unfold.
  unfold bind at 1, new_ReadableStream, start, try_catch.
  unfold bind at 1, on_world, responses_create. unfold bind at 1, modify.
  cbn [conversations upstream_calls].
  destruct (openai (request_for true b c)) as [items|] eqn:Hup.
  2: { eexists; split; [by left | done]. }
  unfold ret at 1. unfold bind at 1.
  edestruct (for_await_world items) as (o & ch' & ->).
  destruct o as [[exit p]|].
  2: { unfold controller_error, modify.
       destruct (channel_state ch'); (eexists; split; [by left | done]). }
  assert (exit = ReturnedEarly ∨ JS.truthy (Some (responseId p)) = false
          ∨ exit ≠ ReturnedEarly ∧ JS.truthy (Some (responseId p)) = true)
    as [->|[Hid|[Hexit Hid]]].
  { destruct exit, (JS.truthy (Some (responseId p))); naive_solver. }
  - eexists; split; [by left | done].
  - rewrite Hid. destruct exit; (eexists; split; [by left | done]).
  - rewrite Hid.
    assert (∀ B (k1 k2 : B), match exit with ReturnedEarly => k1 | _ => k2 end = k2)
      as -> by (by destruct exit).
    cbn. exists (with_reply text (responseId p) (fullResponse p) c).
    split; [right; eauto |].
    rewrite alter_alter_eq, alter_insert_eq. cbn.
    unfold with_reply. by rewrite <-(assoc_L (++)).
Qed.

End relay_found.

(** ** What any call does to the world *)

Lemma relay_effects (call : Call) streaming env b (w : World) :
  relay_of call = Some (streaming, env, b) →
  relay_effect streaming b w (after call w).
Proof.
  intros Hcall. unfold after.
  destruct (invalid_request b) eqn:Hvalid.
  { destruct call; simplify_eq/=;
      [rewrite handleMessage_invalid | rewrite handleStreamMessage_invalid];
      by (done || apply relay_refused). }
  destruct (decide (configured env)) as [Hkey|Hkey].
  2: { destruct call; simplify_eq/=;
         [rewrite handleMessage_no_key | rewrite handleStreamMessage_no_key];
         by (done || apply relay_refused). }
  destruct (invalid_request_false b Hvalid)
    as (sid & text & lang & Hsid & Htext & _).
  destruct (conversations w !! sid) as [c|] eqn:Hfound.
  2: { destruct call; simplify_eq/=;
         [rewrite handleMessage_not_found | rewrite handleStreamMessage_not_found];
         by (done || rewrite ?Hsid || apply relay_refused). }
  destruct call as [| env' b' openai | env' b' openai]; simplify_eq/=.
  - destruct (handleMessage_effect env b w sid text c Hvalid Hkey Hsid Htext Hfound openai)
      as (c' & Hext & ->).
    by eapply relay_forwarded.
  - destruct (handleStreamMessage_effect env b w sid text c Hvalid Hkey Hsid Htext Hfound openai)
      as (c' & Hext & ->).
    by eapply relay_forwarded.
Qed.

Lemma start_effect now random36 (w : World) :
  after (StartConversation now random36) w
  = {| conversations :=
         <[new_sessionId now random36 := {| responseIds := []; messages := [] |}]>
           (conversations w);
       upstream_calls := upstream_calls w |}.
Proof. reflexivity. Qed.

(** The requests issued by a relay call. *)
Lemma relay_issued (call : Call) streaming env b (w : World) p :
  relay_of call = Some (streaming, env, b) → p ∈ issued call w →
  ∃ sid c, sessionId b = Some sid ∧ conversations w !! sid = Some c
    ∧ p = request_for streaming b c.
Proof.
  intros Hcall. unfold issued.
  destruct (relay_effects call streaming env b w Hcall)
    as [-> | sid text c c' Hsid _ Hfound _ ->].
  - rewrite drop_all. by intros ?%elem_of_nil.
  - cbn. rewrite drop_app_length. intros ->%list_elem_of_singleton. eauto.
Qed.

(** ** The invariant of the data model *)

Lemma assistant_turns_app (c : Conversation) (ms : list Message) rs :
  assistant_turns {| responseIds := rs; messages := messages c ++ ms |}
  = assistant_turns c + length (filter (λ m, role m = assistant) ms).
Proof. unfold assistant_turns. cbn. by rewrite filter_app, length_app. Qed.

Lemma continuity_extends text (c c' : Conversation) :
  extends text c c' → continuity c → continuity c'.
Proof.
  unfold continuity. intros [->|(id & reply & ->)] Hc; unfold with_user_turn, with_reply.
  - rewrite assistant_turns_app. cbn. case_decide; [done|]. cbn. lia.
  - rewrite assistant_turns_app. cbn [responseIds]. rewrite length_app. cbn.
    repeat case_decide; try done. cbn. lia.
Qed.

Lemma continuity_after (call : Call) (w : World) :
  map_Forall (λ _, continuity) (conversations w) →
  map_Forall (λ _, continuity) (conversations (after call w)).
Proof.
  intros Hw. destruct (relay_of call) as [[[streaming env] b]|] eqn:Hcall.
  - destruct (relay_effects call streaming env b w Hcall)
      as [-> | sid text c c' _ _ Hfound Hext ->]; [done|].
    cbn. apply map_Forall_insert_2; [|done].
    eapply continuity_extends; [done|]. by eapply (map_Forall_lookup_1 _ _ _ _ Hw).
  - destruct call as [now random36| |]; try discriminate Hcall.
    rewrite start_effect. cbn [conversations].
    by apply map_Forall_insert_2.
Qed.

Lemma continuity_after_all (cs : list Call) (w : World) :
  map_Forall (λ _, continuity) (conversations w) →
  map_Forall (λ _, continuity) (conversations (after_all cs w)).
Proof.
  revert w. induction cs as [|call cs IH]; intros w Hw; [done|].
  cbn. by apply IH, continuity_after.
Qed.

(** Reached from the empty store, every conversation satisfies it. *)
Lemma continuity_reached (cs : list Call) (sid : string) (c : Conversation) :
  conversations (after_all cs initial_world) !! sid = Some c → continuity c.
Proof.
  intros Hc. eapply (map_Forall_lookup_1 (λ _, continuity)); [|exact Hc].
  apply continuity_after_all, map_Forall_empty.
Qed.

Lemma or_null_Some (t : string) : t ≠ "" → JS.or_null (Some t) = Some t.
Proof. intros Ht. cbn. by destruct (String.eqb_spec t ""). Qed.

(** X20. After any sequence of complete handler runs, sync or
    streaming, successful or not, every session has as many continuation
    tokens as assistant turns; and its most recent token, when there is
    one and it is not the empty string, is the [previous_response_id] of
    the request the next relay call on that session hands upstream. *)
Theorem continuation_tokens_track_turns (cs : list Call) (sid : string)
    (c : Conversation) :
  conversations (after_all cs initial_world) !! sid = Some c →
  length (responseIds c) = assistant_turns c
  ∧ ∀ call streaming env b t p,
      relay_of call = Some (streaming, env, b) → sessionId b = Some sid →
      last (responseIds c) = Some t → t ≠ "" →
      p ∈ issued call (after_all cs initial_world) →
      previous_response_id p = Some t.
Proof.
  intros Hc. split.
  - by eapply continuity_reached.
  - intros call streaming env b t p Hcall Hsid Hlast Ht Hp.
    destruct (relay_issued _ _ _ _ _ _ Hcall Hp) as (sid' & c' & Hsid' & Hc' & ->).
    simplify_eq. cbn. rewrite Hlast. by apply or_null_Some.
Qed.

Lemma continuation_tokens_track_turns_witness :
  conversations (Sample.after_first "r1") !! Sample.sid = Some (Sample.exchanged "r1")
  ∧ length (responseIds (Sample.exchanged "r1")) = assistant_turns (Sample.exchanged "r1")
  ∧ request_for false Sample.again (Sample.exchanged "r1")
      ∈ issued Sample.second (Sample.after_first "r1")
  ∧ previous_response_id (request_for false Sample.again (Sample.exchanged "r1"))
    = Some "r1".
Proof.
  assert (conversations (Sample.after_first "r1") !! Sample.sid
          = Some (Sample.exchanged "r1")) as Hc by (vm_compute; reflexivity).
  assert (request_for false Sample.again (Sample.exchanged "r1")
            ∈ issued Sample.second (Sample.after_first "r1")) as Hp
    by (vm_compute; apply list_elem_of_here).
  destruct (continuation_tokens_track_turns _ _ _ Hc) as [Hlen Hprev].
  split; [exact Hc|]. split; [exact Hlen|]. split; [exact Hp|].
  apply (Hprev Sample.second false Sample.env Sample.again "r1");
    [reflexivity | reflexivity | reflexivity | discriminate | exact Hp].
Defined.

(** C1, as worded, fails: a sync relay records whatever identifier the
    upstream response carries, and an empty one is then sent as [null]. *)
Lemma continuation_invariant_counterexample : ¬ AsStated.continuation_invariant.
Proof.
  intros H.
  assert (conversations (Sample.after_first "") !! Sample.sid
          = Some (Sample.exchanged "")) as Hc by (vm_compute; reflexivity).
  destruct (H _ _ _ Hc) as [_ Hprev].
  specialize (Hprev Sample.second false Sample.env Sample.again ""
                (request_for false Sample.again (Sample.exchanged ""))
                eq_refl eq_refl eq_refl).
  assert (request_for false Sample.again (Sample.exchanged "")
            ∈ issued Sample.second (Sample.after_first "")) as Hp
    by (vm_compute; apply list_elem_of_here).
  specialize (Hprev Hp). discriminate Hprev.
Qed.

(** C1. The defect, run. A sync relay whose upstream response carries
    the empty identifier records it: the session has a most recent
    continuation token, the empty one. The streaming relay given the
    same identifier commits nothing. The next relay on the session then
    hands upstream a request without [previous_response_id]. *)
Theorem sync_relay_records_empty_identifier :
  conversations (Sample.after_first "") !! Sample.sid = Some (Sample.exchanged "")
  ∧ last (responseIds (Sample.exchanged "")) = Some ""
  ∧ previous_response_id <$> issued Sample.second (Sample.after_first "") = [None]
  ∧ conversations (after (SampleStream.first_streamed "") Sample.started) !! Sample.sid
    = Some (with_user_turn "Hello" Sample.fresh).
Proof. repeat split; vm_compute; reflexivity. Qed.

(** ** Prior context *)

(** A relay call that passes the checks on a session found as [c] hands
    exactly one request upstream. *)
Lemma relay_issues (call : Call) streaming env b (w : World) sid c :
  relay_of call = Some (streaming, env, b) →
  invalid_request b = false → configured env →
  sessionId b = Some sid → conversations w !! sid = Some c →
  issued call w = [request_for streaming b c].
Proof.
  intros Hcall Hvalid Hkey Hsid Hfound.
  destruct (invalid_request_false b Hvalid) as (sid' & text & lang & ? & Htext & _).
  simplify_eq. unfold issued, after.
  destruct call as [| env' b' openai | env' b' openai]; simplify_eq/=.
  - destruct (handleMessage_effect env b w sid text c Hvalid Hkey Hsid Htext Hfound openai)
      as (c' & _ & ->).
    cbn. by rewrite drop_app_length.
  - destruct (handleStreamMessage_effect env b w sid text c Hvalid Hkey Hsid Htext Hfound openai)
      as (c' & _ & ->).
    cbn. by rewrite drop_app_length.
Qed.

(** X21. A relay call, sync or streaming, that passes the checks hands
    one request upstream; its [previous_response_id] is the session's
    last continuation token as it stood when the call began when that
    token is not the empty string, and is absent when the session has no
    completed assistant turn. *)
Theorem prior_context_linkage (cs : list Call) (call : Call) streaming env b
    (sid : string) (c : Conversation) :
  relay_of call = Some (streaming, env, b) →
  invalid_request b = false → configured env →
  sessionId b = Some sid →
  conversations (after_all cs initial_world) !! sid = Some c →
  ∃ p, issued call (after_all cs initial_world) = [p]
    ∧ (assistant_turns c = 0 → previous_response_id p = None)
    ∧ (∀ t, last (responseIds c) = Some t → t ≠ "" →
         previous_response_id p = Some t).
Proof.
  intros Hcall Hvalid Hkey Hsid Hc.
  exists (request_for streaming b c). split; [by eapply relay_issues|].
  pose proof (continuity_reached cs sid c Hc) as Hlen. unfold continuity in Hlen.
  cbn. split.
  - intros H0. rewrite H0 in Hlen. apply nil_length_inv in Hlen. by rewrite Hlen.
  - intros t -> Ht. by apply or_null_Some.
Qed.

Lemma prior_context_linkage_witness :
  relay_of Sample.second_streamed = Some (true, Sample.env, Sample.again)
  ∧ invalid_request Sample.again = false
  ∧ configured Sample.env
  ∧ sessionId Sample.again = Some Sample.sid
  ∧ conversations (Sample.after_first "r1") !! Sample.sid = Some (Sample.exchanged "r1")
  ∧ ∃ p, issued Sample.second_streamed (Sample.after_first "r1") = [p]
      ∧ previous_response_id p = Some "r1".
Proof.
  assert (invalid_request Sample.again = false) as Hvalid by (vm_compute; reflexivity).
  assert (conversations (Sample.after_first "r1") !! Sample.sid
          = Some (Sample.exchanged "r1")) as Hc by (vm_compute; reflexivity).
  destruct (prior_context_linkage
              [StartConversation 1700000000000 "0.4fzyo82mvyr"; Sample.first "r1"]
              Sample.second_streamed true Sample.env Sample.again Sample.sid
              (Sample.exchanged "r1") eq_refl Hvalid eq_refl eq_refl Hc)
    as (p & Hp & _ & Hprev).
  repeat (split; [done|]). exists p. split; [exact Hp|].
  apply (Hprev "r1"); [reflexivity | discriminate].
Defined.

(** C7, as worded, fails on a session whose last token is the empty
    string: the request carries no [previous_response_id]. *)
Lemma prior_context_counterexample : ¬ AsStated.prior_context_is_last_token.
Proof.
  intros H.
  assert (conversations (Sample.after_first "") !! Sample.sid
          = Some (Sample.exchanged "")) as Hc by (vm_compute; reflexivity).
  assert (request_for true Sample.again (Sample.exchanged "")
            ∈ issued Sample.second_streamed (Sample.after_first "")) as Hp
    by (vm_compute; apply list_elem_of_here).
  specialize (H [StartConversation 1700000000000 "0.4fzyo82mvyr"; Sample.first ""]
                Sample.second_streamed true Sample.env Sample.again Sample.sid
                (Sample.exchanged "") _ eq_refl eq_refl Hc Hp).
  discriminate H.
Qed.

(** C7. The defect, run. On the session whose last continuation token
    is the empty identifier a sync relay recorded, a second message,
    sync or streamed, passes the checks and is handed upstream once,
    with no [previous_response_id]: not the session's last token. With
    the identifier "r1" in its place the same message carries it. *)
Theorem empty_token_is_not_passed_on :
  last (responseIds (Sample.exchanged "")) = Some ""
  ∧ previous_response_id <$> issued Sample.second_streamed (Sample.after_first "")
    = [None]
  ∧ previous_response_id <$> issued Sample.second (Sample.after_first "") = [None]
  ∧ previous_response_id <$> issued Sample.second_streamed (Sample.after_first "r1")
    = [Some "r1"].
Proof. repeat split; vm_compute; reflexivity. Qed.

(** ** The synchronous relay *)

(** C3. A sync relay call whose preconditions hold and whose upstream
    call returns an id and output text answers with the trimmed text and
    that id, adds to the session exactly the user turn of the request
    and an assistant turn with the reply, and leaves the id as the
    session's last continuation token. *)
Theorem sync_relay_commits_reply env (b : RelayBody) openai (w : World)
    (sid text lang : string) (c : Conversation) (r : UpstreamResponse)
    (output : string) :
  sessionId b = Some sid → message b = Some text → targetLang b = Some lang →
  sid ≠ "" → text ≠ "" → supported lang → configured env →
  conversations w !! sid = Some c →
  openai (request_for false b c) = Resolved r → output_text r = Some output →
  ∃ w' c',
    handleMessage env b openai w
    = (Returned (json 200 (JsonMessage (JS.trim output) (response_id r))), w')
    ∧ conversations w' !! sid = Some c'
    ∧ messages c'
      = messages c ++ [user_turn text; assistant_turn (JS.trim output)]
    ∧ responseIds c' = responseIds c ++ [response_id r]
    ∧ last (responseIds c') = Some (response_id r)
    ∧ ∀ sid', sid' ≠ sid → conversations w' !! sid' = conversations w !! sid'.
Proof.
  intros Hsid Htext Hlang ? ? Hsup Hkey Hfound Hup Hout.
  pose proof (valid_request b sid text lang) as Hvalid.
  rewrite (handleMessage_resolved env b w sid text c) with (r := r) by auto.
  unfold reply_text. rewrite Hout.
  eexists _, _. split; [reflexivity|]. cbn.
  split; [apply lookup_insert_eq|]. cbn.
  split; [done|]. split; [done|]. split; [apply last_snoc|].
  intros sid' Hne. by rewrite lookup_insert_ne.
Qed.

Lemma sync_relay_commits_reply_witness :
  conversations Sample.started !! Sample.sid = Some Sample.fresh
  ∧ ∃ w' c',
      handleMessage Sample.env Sample.hello
        (Sample.answers "r1" ("  Bonjour " +:+ JS.nl)) Sample.started
      = (Returned (json 200 (JsonMessage "Bonjour" "r1")), w')
      ∧ conversations w' !! Sample.sid = Some c'
      ∧ messages c' = [user_turn "Hello"; assistant_turn "Bonjour"]
      ∧ responseIds c' = ["r1"].
Proof.
  split; [exact sample_started|].
  destruct (sync_relay_commits_reply Sample.env Sample.hello
              (Sample.answers "r1" ("  Bonjour " +:+ JS.nl)) Sample.started
              Sample.sid "Hello" "fr" Sample.fresh
              {| response_id := "r1"; output_text := Some ("  Bonjour " +:+ JS.nl) |}
              ("  Bonjour " +:+ JS.nl) eq_refl eq_refl eq_refl)
    as (w' & c' & Hrun & Hc' & Hm & Hr & _);
    [by vm_compute | discriminate | by exists fr | reflexivity
    | exact sample_started | reflexivity | reflexivity |].
  exists w', c'. split; [exact Hrun|]. split; [exact Hc'|]. split; [exact Hm | exact Hr].
Defined.

(** C5. A sync relay call that passes validation but whose upstream call
    fails leaves the session with the user turn appended and nothing
    else: no assistant turn, no continuation token; the handler itself
    throws. *)
Theorem sync_relay_failure_keeps_user_turn env (b : RelayBody) openai (w : World)
    (sid text : string) (c : Conversation) :
  invalid_request b = false → configured env →
  sessionId b = Some sid → message b = Some text →
  conversations w !! sid = Some c →
  openai (request_for false b c) = Rejected →
  ∃ w' c',
    handleMessage env b openai w = (Threw, w')
    ∧ conversations w' !! sid = Some c'
    ∧ messages c' = messages c ++ [user_turn text]
    ∧ responseIds c' = responseIds c
    ∧ assistant_turns c' = assistant_turns c
    ∧ ∀ sid', sid' ≠ sid → conversations w' !! sid' = conversations w !! sid'.
Proof.
  intros Hvalid Hkey Hsid Htext Hfound Hup.
  rewrite (handleMessage_rejected env b w sid text c) by done.
  eexists _, _. split; [reflexivity|]. cbn [conversations].
  split; [apply lookup_insert_eq|]. unfold with_user_turn.
  split; [done|]. split; [done|]. split.
  - rewrite assistant_turns_app. cbn. case_decide; [done|]. cbn. lia.
  - intros sid' Hne. by rewrite lookup_insert_ne.
Qed.

Lemma sync_relay_failure_keeps_user_turn_witness :
  ∃ w' c',
    handleMessage Sample.env Sample.again (λ _, Rejected) (Sample.after_first "r1")
    = (Threw, w')
    ∧ conversations w' !! Sample.sid = Some c'
    ∧ messages c'
      = [user_turn "Hello"; assistant_turn "Bonjour"; user_turn "Merci"]
    ∧ responseIds c' = ["r1"].
Proof.
  destruct (sync_relay_failure_keeps_user_turn Sample.env Sample.again (λ _, Rejected)
              (Sample.after_first "r1") Sample.sid "Merci" (Sample.exchanged "r1"))
    as (w' & c' & Hrun & Hc' & Hm & Hr & _);
    [by vm_compute | reflexivity | reflexivity | reflexivity | by vm_compute
    | reflexivity |].
  exists w', c'. split; [exact Hrun|]. split; [exact Hc'|]. split; [exact Hm | exact Hr].
Defined.

(** ** The streaming relay *)

Lemma captured_none (pre : list StreamEvent) :
  Forall supplies_no_id pre → captured_id pre "" = "".
Proof.
  induction 1 as [|event pre Hno _ IH]; [done|]. cbn.
  unfold supplies_no_id in Hno.
  destruct (is_created event); [|done]. by rewrite Hno.
Qed.

Section streaming.

Context (env : WorkerEnv) (b : RelayBody) (w : World).
Context (openai : CreateParams → Settled (list Pull)).
Context (sid text : string) (c : Conversation).
Hypothesis (Hvalid : invalid_request b = false) (Hkey : configured env).
Hypothesis (Hsid : sessionId b = Some sid) (Htext : message b = Some text).
Hypothesis (Hfound : conversations w !! sid = Some c).

(** C2 (amended). When the upstream stream reaches the completion event,
    the chunks enqueued on the output channel are exactly the non-empty
    payloads of the text-delta events received before it, in arrival
    order; their concatenation is the text of all those payloads, which
    is the assistant turn committed to the session when a response
    identifier is in force. *)
Theorem stream_forwards_nonempty_deltas pre d post :
  openai (request_for true b c) = Resolved ((Yield <$> pre) ++ Yield d :: post) →
  Forall quiet pre → is_done d = true →
  ∃ ch w',
    handleStreamMessage env b openai w = (Returned (text_stream ch), w')
    ∧ chunks ch = encode <$> filter nonempty (delta_payloads pre)
    ∧ channel_state ch = Closed
    ∧ mjoin (chunks ch) = encode (join (delta_payloads pre))
    ∧ (captured_id pre "" ≠ "" →
       conversations w' !! sid
       = Some (with_reply text (captured_id pre "") (join (delta_payloads pre)) c)).
Proof.
  intros Hup Hq Hd.
  rewrite (handleStreamMessage_completed env b w sid text c) with (pre := pre)
    (d := d) (post := post) by done.
  eexists _, _. split; [reflexivity|]. cbn [chunks channel_state conversations].
  split; [done|]. split; [done|]. split.
  - unfold forwarded. by rewrite concat_encode, join_filter_nonempty.
  - intros Hid. rewrite lookup_insert_eq. unfold settled.
    by rewrite decide_False.
Qed.

(** C6. When the completion event arrives and no creation event has
    supplied a response identifier, the channel is closed and the
    session keeps the user turn only: no assistant turn, no token. *)
Theorem stream_without_identifier_commits_nothing pre d post :
  openai (request_for true b c) = Resolved ((Yield <$> pre) ++ Yield d :: post) →
  Forall quiet pre → is_done d = true →
  Forall supplies_no_id pre →
  ∃ ch w' c',
    handleStreamMessage env b openai w = (Returned (text_stream ch), w')
    ∧ channel_state ch = Closed
    ∧ conversations w' !! sid = Some c'
    ∧ messages c' = messages c ++ [user_turn text]
    ∧ responseIds c' = responseIds c
    ∧ assistant_turns c' = assistant_turns c.
Proof.
  intros Hup Hq Hd Hno.
  rewrite (handleStreamMessage_completed env b w sid text c) with (pre := pre)
    (d := d) (post := post) by done.
  eexists _, _, _. split; [reflexivity|]. cbn [chunks channel_state conversations].
  split; [done|]. split; [apply lookup_insert_eq|].
  unfold settled. rewrite decide_True by (by apply captured_none).
  unfold with_user_turn. split; [done|]. split; [done|].
  rewrite assistant_turns_app. cbn. case_decide; [done|]. cbn. lia.
Qed.

(** C10. When the upstream stream ends without a completion event, an
    error event or an exception, the channel is left open (neither
    closed nor errored), and the text accumulated so far is committed as
    an assistant turn, under the identifier in force, when there is
    one. *)
Theorem truncated_stream_commits pre :
  openai (request_for true b c) = Resolved (Yield <$> pre) →
  Forall quiet pre →
  ∃ ch w',
    handleStreamMessage env b openai w = (Returned (text_stream ch), w')
    ∧ channel_state ch = Readable
    ∧ (captured_id pre "" ≠ "" →
       ∃ c', conversations w' !! sid = Some c'
         ∧ messages c'
           = messages c ++ [user_turn text; assistant_turn (join (delta_payloads pre))]
         ∧ responseIds c' = responseIds c ++ [captured_id pre ""]).
Proof.
  intros Hup Hq.
  rewrite (handleStreamMessage_truncated env b w sid text c) with (pre := pre)
    by done.
  eexists _, _. split; [reflexivity|]. cbn [chunks channel_state conversations].
  split; [done|]. intros Hid. eexists. split; [apply lookup_insert_eq|].
  unfold settled. by rewrite decide_False.
Qed.

End streaming.

Lemma stream_forwards_nonempty_deltas_witness :
  ∃ ch w',
    handleStreamMessage Sample.env Sample.hello Sample.completes Sample.started
    = (Returned (text_stream ch), w')
    ∧ chunks ch = [encode "Bon"; encode "jour"]
    ∧ channel_state ch = Closed
    ∧ conversations w' !! Sample.sid = Some (Sample.exchanged "r1").
Proof.
  destruct (stream_forwards_nonempty_deltas Sample.env Sample.hello Sample.started
              Sample.completes Sample.sid "Hello" Sample.fresh
              sample_hello_valid eq_refl eq_refl eq_refl sample_started
              Sample.bonjour Sample.done [] eq_refl)
    as (ch & w' & Hrun & Hchunks & Hclosed & _ & Hcommit);
    [repeat constructor | reflexivity |].
  exists ch, w'. split; [exact Hrun|]. split; [exact Hchunks|].
  split; [exact Hclosed|]. apply Hcommit. discriminate.
Defined.

(** C2, as worded, fails: a text-delta event with an empty payload puts
    no chunk on the channel. *)
Lemma stream_forwards_deltas_counterexample :
  ¬ AsStated.stream_forwards_deltas Sample.bonjour Sample.done [].
Proof.
  intros H.
  assert (Forall quiet Sample.bonjour) as Hq by repeat constructor.
  pose proof (handleStreamMessage_completed Sample.env Sample.hello Sample.started
                Sample.sid "Hello" Sample.fresh sample_hello_valid eq_refl eq_refl
                eq_refl sample_started Sample.completes Sample.bonjour Sample.done []
                eq_refl Hq eq_refl) as Hrun.
  destruct (H Sample.env Sample.hello Sample.started Sample.sid "Hello" Sample.fresh
              Sample.completes _ _ sample_hello_valid eq_refl eq_refl eq_refl
              sample_started eq_refl Hq eq_refl Hrun) as (ch & Hbody & Hchunks & _).
  injection Hbody as <-. vm_compute in Hchunks. discriminate Hchunks.
Qed.

Lemma stream_without_identifier_commits_nothing_witness :
  ∃ ch w' c',
    handleStreamMessage Sample.env Sample.hello Sample.completes_unnamed Sample.started
    = (Returned (text_stream ch), w')
    ∧ channel_state ch = Closed
    ∧ conversations w' !! Sample.sid = Some c'
    ∧ messages c' = [user_turn "Hello"]
    ∧ responseIds c' = [].
Proof.
  destruct (stream_without_identifier_commits_nothing Sample.env Sample.hello
              Sample.started Sample.completes_unnamed Sample.sid "Hello" Sample.fresh
              sample_hello_valid eq_refl eq_refl eq_refl sample_started
              Sample.unnamed Sample.done [] eq_refl)
    as (ch & w' & c' & Hrun & Hclosed & Hc' & Hm & Hr & _);
    [repeat constructor | reflexivity | repeat constructor; discriminate |].
  exists ch, w', c'. split; [exact Hrun|]. split; [exact Hclosed|].
  split; [exact Hc'|]. split; [exact Hm | exact Hr].
Defined.

Lemma truncated_stream_commits_witness :
  ∃ ch w' c',
    handleStreamMessage Sample.env Sample.hello
      (Sample.emits (Yield <$> Sample.cut_short)) Sample.started
    = (Returned (text_stream ch), w')
    ∧ channel_state ch = Readable
    ∧ conversations w' !! Sample.sid = Some c'
    ∧ messages c' = [user_turn "Hello"; assistant_turn "Bon"]
    ∧ responseIds c' = ["r1"].
Proof.
  destruct (truncated_stream_commits Sample.env Sample.hello Sample.started
              (Sample.emits (Yield <$> Sample.cut_short)) Sample.sid "Hello"
              Sample.fresh sample_hello_valid eq_refl eq_refl eq_refl sample_started
              Sample.cut_short eq_refl)
    as (ch & w' & Hrun & Hopen & Hcommit); [repeat constructor|].
  destruct Hcommit as (c' & Hc' & Hm & Hr); [discriminate|].
  exists ch, w', c'. split; [exact Hrun|]. split; [exact Hopen|].
  split; [exact Hc'|]. split; [exact Hm | exact Hr].
Defined.

(** ** Refusals *)

Lemma unacceptable_invalid (b : RelayBody) :
  unacceptable b → invalid_request b = true.
Proof.
  unfold unacceptable, missing, invalid_request.
  intros [->|[->|[->|[Hsup Hinh]]]]; rewrite ?orb_true_r; try done.
  destruct (JS.has_property langName (JS.or_empty (targetLang b))) eqn:Hp.
  - apply has_property_langName in Hp as [?|?]; done.
  - by rewrite orb_true_r.
Qed.

Lemma well_formed_valid (b : RelayBody) :
  ¬ malformed b → invalid_request b = false.
Proof.
  unfold malformed, missing. intros Hb.
  destruct (JS.truthy (sessionId b)) eqn:Hs; [|by destruct Hb; auto].
  destruct (JS.truthy (message b)) eqn:Hm; [|by destruct Hb; auto].
  destruct (JS.truthy (targetLang b)) eqn:Hl; [|by destruct Hb; auto].
  apply truthy_inv in Hs as (sid & Hs & ?), Hm as (text & Hm & ?),
    Hl as (lang & Hl & ?).
  apply (valid_request b sid text lang); try done.
  rewrite Hl in Hb. cbn in Hb. apply supported_has_own.
  destruct (JS.has_own langName lang) eqn:Hown; [done|].
  destruct Hb. do 3 right. rewrite supported_has_own. by rewrite Hown.
Qed.

(** C4 (amended). A relay call, sync or streaming, whose request lacks
    sessionId, message or targetLang (absent or empty), or whose
    targetLang is neither a supported code nor a property name inherited
    by the language table, fails with 400; a well-formed request fails
    with 500 when the credential is missing, and with 404 when the
    credential is there and the session is not. In each case the world
    is left as it was: no session is changed, upstream is not called. *)
Theorem refusals_precede_effects (call : Call) streaming env b (w : World) :
  relay_of call = Some (streaming, env, b) →
  (unacceptable b → refused_with 400 call w)
  ∧ (¬ malformed b → ¬ configured env → refused_with 500 call w)
  ∧ (¬ malformed b → configured env →
     conversations w !! JS.or_empty (sessionId b) = None →
     refused_with 404 call w).
Proof.
  intros Hcall. unfold refused_with. split; [|split].
  - intros Hb%unacceptable_invalid.
    destruct call; simplify_eq/=;
      [rewrite handleMessage_invalid | rewrite handleStreamMessage_invalid];
      by eauto.
  - intros Hb%well_formed_valid Hkey.
    destruct call; simplify_eq/=;
      [rewrite handleMessage_no_key | rewrite handleStreamMessage_no_key];
      by eauto.
  - intros Hb%well_formed_valid Hkey Hnone.
    destruct call; simplify_eq/=;
      [rewrite handleMessage_not_found | rewrite handleStreamMessage_not_found];
      by eauto.
Qed.

Lemma not_supported (lang : string) :
  JS.has_own langName lang = false → ¬ supported lang.
Proof. intros H Hs. apply supported_has_own in Hs. congruence. Qed.

Lemma sample_elsewhere_well_formed : ¬ malformed Sample.elsewhere.
Proof.
  intros [H|[H|[H|H]]]; try discriminate H. apply H. by exists fr.
Qed.

Lemma refusals_precede_effects_witness :
  refused_with 400 Sample.in_klingon Sample.started
  ∧ refused_with 500 Sample.without_key Sample.started
  ∧ refused_with 404 Sample.to_nowhere Sample.started.
Proof.
  split; [|split].
  - apply (refusals_precede_effects Sample.in_klingon false Sample.env
             (Sample.request Sample.sid "Hello" "tlh") Sample.started eq_refl).
    do 3 right. split.
    + by apply not_supported.
    + apply (bool_decide_unpack _). vm_compute. exact I.
  - apply (refusals_precede_effects Sample.without_key true Sample.no_key
             Sample.elsewhere Sample.started eq_refl).
    + exact sample_elsewhere_well_formed.
    + discriminate.
  - apply (refusals_precede_effects Sample.to_nowhere true Sample.env
             Sample.elsewhere Sample.started eq_refl).
    + exact sample_elsewhere_well_formed.
    + reflexivity.
    + vm_compute. reflexivity.
Defined.

(** C4, as worded, fails twice. "toString" is no supported language, yet
    [targetLang in langName] holds of it: the call is served, the session
    gains turns and upstream is called. And a request for an unknown
    session is answered 500, not 404, when the credential is missing. *)
Lemma refusal_precedes_effects_counterexample :
  ¬ AsStated.refusal_precedes_effects Sample.inherited Sample.started
  ∧ ¬ AsStated.refusal_precedes_effects Sample.without_key Sample.started.
Proof.
  split; intros H.
  - destruct (H false Sample.env Sample.in_toString eq_refl) as [H400 _].
    destruct H400 as (r & Hrun & Hst).
    { do 3 right. by apply not_supported. }
    apply (f_equal fst) in Hrun. vm_compute in Hrun.
    injection Hrun as <-. discriminate Hst.
  - destruct (H true Sample.no_key Sample.elsewhere eq_refl) as [_ H404].
    destruct H404 as (r & Hrun & Hst).
    { exact sample_elsewhere_well_formed. }
    { vm_compute. reflexivity. }
    apply (f_equal fst) in Hrun. vm_compute in Hrun.
    injection Hrun as <-. discriminate Hst.
Qed.

(** What the call with the inherited name does: it answers 200, records
    both turns and the token, and hands upstream instructions built from
    the text of [Object.prototype.toString]. *)
Example inherited_name_is_served :
  let served := handle Sample.inherited Sample.started in
  served.1 = Returned (json 200 (JsonMessage "Bonjour" "r1"))
  ∧ conversations served.2 !! Sample.sid = Some (Sample.exchanged "r1")
  ∧ input <$> upstream_calls served.2
    = ["User message: Hello" +:+ JS.nl +:+ JS.nl
       +:+ "Please respond in function toString() { [native code] } only."].
Proof. split; [|split]; vm_compute; reflexivity. Qed.

(** ** Language policy *)



(** ** Session identifiers *)

Lemma pretty_N_char_digit (x : N) : is_Some (Ascii.is_nat (pretty_N_char x)).
Proof. unfold pretty_N_char. repeat case_match; by eexists. Qed.

Lemma pretty_N_go_digits (x : N) (s : string) :
  digits s → digits (pretty_N_go x s).
Proof.
  revert s. induction (N.lt_wf_0 x) as [x _ IH]; intros s Hs.
  destruct (decide (x = 0%N)) as [->|Hx]; [by rewrite pretty_N_go_0|].
  rewrite pretty_N_go_step by lia. apply IH.
  - apply N.div_lt; lia.
  - split; [apply pretty_N_char_digit | done].
Qed.

(** The decimal text of a clock value. *)
Lemma pretty_N_digits (n : N) : digits (pretty n).
Proof.
  unfold pretty, pretty_N. case_decide.
  - split; [by eexists | done].
  - by apply pretty_N_go_digits.
Qed.

(** A text of digits followed by an underscore ends at that underscore. *)
Lemma digits_then_underscore (a a' s s' : string) :
  digits a → digits a' →
  a +:+ "_" +:+ s = a' +:+ "_" +:+ s' → a = a' ∧ s = s'.
Proof.
  revert a'. induction a as [|x a IH]; intros [|x' a'] Ha Ha' Heq.
  - by injection Heq.
  - injection Heq as <- _. by destruct Ha' as [[? [=]] _].
  - injection Heq as -> _. by destruct Ha as [[? [=]] _].
  - rewrite !string_app_cons in Heq. injection Heq as -> Heq.
    destruct Ha as [_ Ha], Ha' as [_ Ha'].
    destruct (IH a' Ha Ha' Heq) as [-> ->]. done.
Qed.

(** Two identifiers are equal only if made from the same clock value and
    the same nine random characters. *)
Lemma id_of_source_inj : Inj (=) (=) id_of_source.
Proof.
  intros [n s1] [n' s2] Heq. unfold id_of_source in Heq. cbn in Heq.
  apply (inj (String.app "session_")) in Heq.
  apply digits_then_underscore in Heq as [Hn ->]; [|apply pretty_N_digits..].
  by apply (inj pretty) in Hn as ->.
Qed.

(** The create calls all return, each with the identifier made from
    its draw. *)
Lemma create_all_returns (draws : list (N * string)) (w : World) :
  ∃ w', create_all draws w
        = (Returned (id_of_source <$> (id_source <$> draws)), w').
Proof.
  revert w. induction draws as [|[now random36] draws IH]; intros w.
  - by eexists.
  - cbn. unfold bind at 1. cbn.
    edestruct IH as [w' ->]. by eexists.
Qed.

Lemma created_ids_eq (draws : list (N * string)) (w : World) :
  created_ids draws w = id_of_source <$> (id_source <$> draws).
Proof.
  unfold created_ids. by destruct (create_all_returns draws w) as [w' ->].
Qed.

(** C9 (amended). N create calls yield N identifiers, and these are
    pairwise distinct exactly when no two of the calls read the same
    clock value together with the same nine random characters. *)
Theorem identifiers_distinct_iff_draws_distinct (draws : list (N * string))
    (w : World) :
  length (created_ids draws w) = length draws
  ∧ (NoDup (created_ids draws w) ↔ NoDup (id_source <$> draws)).
Proof.
  rewrite created_ids_eq. split; [by rewrite !length_fmap|].
  apply (@NoDup_fmap _ _ id_of_source id_of_source_inj).
Qed.

Lemma identifiers_distinct_iff_draws_distinct_witness :
  let draws := [(1700000000000%N, "0.4fzyo82mvyr"); (1700000000000%N, "0.9k2x7c1ab3");
                (1700000000001%N, "0.4fzyo82mvyr")] in
  NoDup (id_source <$> draws)
  ∧ length (created_ids draws initial_world) = 3
  ∧ NoDup (created_ids draws initial_world).
Proof.
  intros draws.
  assert (NoDup (id_source <$> draws)) as Hnd.
  { apply (bool_decide_unpack _). vm_compute. exact I. }
  destruct (identifiers_distinct_iff_draws_distinct draws initial_world)
    as [Hlen Hiff].
  split; [exact Hnd|]. split; [exact Hlen|]. apply Hiff, Hnd.
Defined.

(** C9, as worded, fails: two create calls that read the same clock
    value and the same random text are given the same identifier. *)
Lemma identifiers_never_reused_counterexample : ¬ AsStated.identifiers_never_reused.
Proof.
  intros H.
  destruct (H [(1700000000000%N, "0.4fzyo82mvyr"); (1700000000000%N, "0.4fzyo82mvyr")]
              initial_world) as [_ Hnd].
  rewrite created_ids_eq in Hnd. cbn [fmap list_fmap] in Hnd.
  apply NoDup_cons in Hnd as [Hin _]. apply Hin, list_elem_of_here.
Qed.

(** The second of two such calls replaces the session of the first: a
    conversation held under the identifier is lost. *)
Example colliding_create_resets_session :
  conversations (after (StartConversation 1700000000000 "0.4fzyo82mvyr")
                   (Sample.after_first "r1")) !! Sample.sid
  = Some Sample.fresh.
Proof. vm_compute. reflexivity. Qed.


(** * Beyond the claims: the rest of the worker *)

(** ** Response headers *)

Lemma lower_idemp (c : ascii) : Headers.lower (Headers.lower c) = Headers.lower c.
Proof. destruct c as [[] [] [] [] [] [] [] []]; reflexivity. Qed.

Lemma lowercase_idemp (s : string) :
  Headers.lowercase (Headers.lowercase s) = Headers.lowercase s.
Proof. induction s as [|c s IH]; [done|]. cbn. by rewrite lower_idemp, IH. Qed.

Lemma lowercased_insert (h : gmap string string) (name value : string) :
  lowercased h → lowercased (<[Headers.lowercase name := value]> h).
Proof.
  intros Hh k v. rewrite lookup_insert. case_decide as Hk.
  - intros _. by rewrite <-Hk, lowercase_idemp.
  - apply Hh.
Qed.

Lemma lowercased_set (h : gmap string string) (name value : string) :
  lowercased h → lowercased (Headers.set name value h).
Proof. apply lowercased_insert. Qed.

Lemma lowercased_append (h : gmap string string) (name value : string) :
  lowercased h → lowercased (Headers.append name value h).
Proof.
  intros Hh. unfold Headers.append.
  destruct (h !! Headers.lowercase name); by apply lowercased_insert.
Qed.

Lemma lowercased_fill (init : list (string * string)) (h : gmap string string) :
  lowercased h → lowercased (foldl (λ h nv, Headers.append nv.1 nv.2 h) h init).
Proof.
  revert h. induction init as [|[n v] init IH]; intros h Hh; [done|].
  cbn. by apply IH, lowercased_append.
Qed.

Lemma lowercased_of_list (init : list (string * string)) :
  lowercased (Headers.of_list init).
Proof. apply lowercased_fill. by intros k v ?%lookup_empty_Some. Qed.

(** Filling an object with pairs of distinct, lower-cased names that it
    does not hold yet adds them as they are. *)
Lemma fill_fresh (l : list (string * string)) (h : gmap string string) :
  NoDup l.*1 →
  (∀ k, k ∈ l.*1 → Headers.lowercase k = k ∧ h !! k = None) →
  foldl (λ h nv, Headers.append nv.1 nv.2 h) h l = list_to_map l ∪ h.
Proof.
  revert h. induction l as [|[n v] l IH]; intros h Hnd Hl.
  - cbn. by rewrite (left_id_L ∅ (∪)).
  - cbn in *. apply NoDup_cons in Hnd as [Hn Hnd].
    destruct (Hl n) as [Hlow Hfresh]; [apply list_elem_of_here|].
    unfold Headers.append at 2. cbn. rewrite Hlow, Hfresh.
    rewrite IH; [|done|].
    + rewrite <-insert_union_l, <-insert_union_r; [done|].
      by apply not_elem_of_list_to_map_1.
    + intros k Hk. destruct (Hl k) as [? ?]; [by apply list_elem_of_further|].
      split; [done|]. rewrite lookup_insert_ne; [done|]. by intros ->.
Qed.

(** Round trip: the object made from the iteration of an object is that
    object. *)
Lemma of_list_entries (h : gmap string string) :
  lowercased h → Headers.of_list (Headers.entries h) = h.
Proof.
  intros Hh. unfold Headers.of_list, Headers.entries.
  assert (merge_sort Headers.by_name (map_to_list h) ≡ₚ map_to_list h) as Hp
    by apply merge_sort_Permutation.
  rewrite fill_fresh.
  - rewrite (right_id_L ∅ (∪)).
    rewrite (list_to_map_proper _ (map_to_list h)); [apply list_to_map_to_list| |done].
    rewrite Hp. apply NoDup_fst_map_to_list.
  - rewrite Hp. apply NoDup_fst_map_to_list.
  - intros k Hk. split; [|apply lookup_empty].
    rewrite Hp in Hk. apply list_elem_of_fmap in Hk as [[k' v] [-> Hin]].
    apply elem_of_map_to_list in Hin. by eapply Hh.
Qed.

Lemma lowercased_cors (h : gmap string string) :
  lowercased h → lowercased (foldl (λ h kv, Headers.set kv.1 kv.2 h) h corsHeaders).
Proof.
  intros Hh. unfold corsHeaders. cbn [foldl fst snd].
  by do 3 apply lowercased_set.
Qed.

(** The headers object of a response that went through [addCorsHeaders]:
    that of the response, with the three names set. *)
Lemma headers_after_cors (r : Response) :
  Headers.of_list (headers (addCorsHeaders r))
  = foldl (λ h kv, Headers.set kv.1 kv.2 h) (Headers.of_list (headers r)) corsHeaders.
Proof.
  unfold addCorsHeaders. cbn [headers].
  rewrite (of_list_entries (Headers.of_list (headers r)))
    by apply lowercased_of_list.
  apply of_list_entries, lowercased_cors, lowercased_of_list.
Qed.

(** The three names in a headers object they were set in, and the
    other names. *)
Lemma cors_lookup (h : gmap string string) (name value : string) :
  (name, value) ∈ corsHeaders →
  foldl (λ h kv, Headers.set kv.1 kv.2 h) h corsHeaders
    !! Headers.lowercase name = Some value.
Proof.
  intros Hin. cbn [foldl corsHeaders fst snd].
  unfold Headers.set, corsHeaders in *.
  repeat (apply elem_of_cons in Hin as [[= -> ->]|Hin]);
    [..|by apply elem_of_nil in Hin].
  - rewrite lookup_insert_ne by (vm_compute; discriminate).
    rewrite lookup_insert_ne by (vm_compute; discriminate).
    by rewrite lookup_insert_eq.
  - rewrite lookup_insert_ne by (vm_compute; discriminate).
    by rewrite lookup_insert_eq.
  - by rewrite lookup_insert_eq.
Qed.

Lemma cors_lookup_other (h : gmap string string) (name : string) :
  ¬ cors_name name →
  foldl (λ h kv, Headers.set kv.1 kv.2 h) h corsHeaders
    !! Headers.lowercase name = h !! Headers.lowercase name.
Proof.
  intros Hname. cbn [foldl corsHeaders fst snd]. unfold Headers.set.
  rewrite !lookup_insert_ne; [done|..]; intros Heq; apply Hname;
    match type of Heq with
    | Headers.lowercase ?k = _ =>
        match eval unfold corsHeaders in corsHeaders with
        | context [(k, ?v)] => exists (k, v)
        end
    end;
    (split; [unfold corsHeaders; set_solver | by symmetry]).
Qed.

(** X1. Whatever headers a response carries, after [addCorsHeaders] each
    of the three cross-origin headers reads, under any spelling of its
    name, as the value of [corsHeaders]: a value the response gave for
    that name is replaced. *)
Theorem cors_headers_are_set (r : Response) (name value spelling : string) :
  (name, value) ∈ corsHeaders →
  Headers.lowercase spelling = Headers.lowercase name →
  header spelling (headers (addCorsHeaders r)) = Some value.
Proof.
  intros Hin Hsp. unfold header, Headers.get.
  rewrite headers_after_cors, Hsp. by apply cors_lookup.
Qed.

Lemma cors_headers_are_set_witness :
  header "access-control-allow-origin"
    (headers (addCorsHeaders
                {| status := 200;
                   headers := [("Access-Control-Allow-Origin", "https://a.example")];
                   body := JsonError "x" |}))
  = Some "*".
Proof.
  apply (cors_headers_are_set _ "Access-Control-Allow-Origin" "*").
  - apply list_elem_of_here.
  - reflexivity.
Defined.

(** X2. [addCorsHeaders] changes nothing else: the status and the body
    are those of the response, and so is every header whose name is not
    one of the three. *)
Theorem cors_keeps_the_rest (r : Response) :
  status (addCorsHeaders r) = status r
  ∧ body (addCorsHeaders r) = body r
  ∧ ∀ name, ¬ cors_name name →
      header name (headers (addCorsHeaders r)) = header name (headers r).
Proof.
  split; [done|]. split; [done|]. intros name Hname.
  unfold header, Headers.get. rewrite headers_after_cors.
  by apply cors_lookup_other.
Qed.

Lemma cors_keeps_the_rest_witness :
  header "Content-Type" (headers (addCorsHeaders (json 404 (JsonError "Not found"))))
  = Some "application/json".
Proof.
  destruct (cors_keeps_the_rest (json 404 (JsonError "Not found"))) as (_ & _ & H).
  rewrite H; [reflexivity|].
  intros (kv & Hin & Heq). unfold corsHeaders in Hin.
  repeat (apply elem_of_cons in Hin as [->|Hin]); try discriminate Heq.
  by apply elem_of_nil in Hin.
Defined.

(** X3. Applying [addCorsHeaders] twice is applying it once. *)
Theorem cors_idempotent (r : Response) :
  addCorsHeaders (addCorsHeaders r) = addCorsHeaders r.
Proof.
  unfold addCorsHeaders at 1. rewrite headers_after_cors.
  set (h := foldl _ (Headers.of_list (headers r)) corsHeaders).
  assert (lowercased h) as Hh by apply lowercased_cors, lowercased_of_list.
  rewrite of_list_entries by done.
  assert (foldl (λ h kv, Headers.set kv.1 kv.2 h) h corsHeaders = h) as ->.
  { subst h. cbn [foldl corsHeaders fst snd]. unfold Headers.set.
    apply map_eq. intros k. rewrite !lookup_insert.
    repeat case_decide; done. }
  unfold addCorsHeaders. f_equal. f_equal. subst h.
  by rewrite (of_list_entries (Headers.of_list (headers r)))
    by apply lowercased_of_list.
Qed.

(** ** The streaming relay, however the loop is left *)

(** From a readable channel the loop hands the channel back closed after
    a [break], errored after a [return], and readable otherwise; and it
    does so whatever the world. *)
Lemma for_await_exit (items : list Pull) p ch :
  channel_state ch = Readable →
  ∃ o ch', (∀ w, for_await items p (w, ch) = (o, (w, ch')))
    ∧ channel_state ch' = exit_state o.
Proof.
  revert p ch. induction items as [|[event|] items IH]; intros p [cs st] Hst;
    simpl in Hst; subst st.
  - by eexists _, _.
  - set (p1 := if is_created event
               then {| fullResponse := fullResponse p;
                       responseId := JS.or_empty (r ← event_response event;
                                                  event_response_id r) |}
               else p).
    destruct (is_delta event && JS.truthy (event_delta event)) eqn:Hd;
      destruct (is_done event) eqn:Hdone;
      try destruct (has_error event) eqn:Herr.
    1,2,3,5,6,7:
      eexists _, _; split;
        [intros w; cbn [for_await]; fold p1; rewrite Hd, Hdone, ?Herr;
         unfold bind, controller_enqueue, controller_close, controller_error,
           modify, ret;
         cbn [channel_state chunks]; reflexivity
        | reflexivity].
    + destruct (IH {| fullResponse := fullResponse p1
                                      +:+ JS.or_empty (event_delta event);
                      responseId := responseId p1 |}
                   {| chunks := cs ++ [encode (JS.or_empty (event_delta event))];
                      channel_state := Readable |} eq_refl)
        as (o & ch' & Hrun & Hstate).
      exists o, ch'. split; [|done]. intros w.
      cbn [for_await]. fold p1. rewrite Hd, Hdone, Herr.
      unfold bind at 1 2, controller_enqueue, ret at 1.
      cbn [channel_state chunks]. apply Hrun.
    + destruct (IH p1 {| chunks := cs; channel_state := Readable |} eq_refl)
        as (o & ch' & Hrun & Hstate).
      exists o, ch'. split; [|done]. intros w.
      cbn [for_await]. fold p1. rewrite Hd, Hdone, Herr.
      unfold bind at 1, ret at 1. apply Hrun.
  - by eexists _, _.
Qed.

Section stream_left.

Context (env : WorkerEnv) (b : RelayBody) (w : World).
Context (sid text : string) (c : Conversation).
Hypothesis (Hvalid : invalid_request b = false) (Hkey : configured env).
Hypothesis (Hsid : sessionId b = Some sid) (Htext : message b = Some text).
Hypothesis (Hfound : conversations w !! sid = Some c).

(** The streaming handler after a loop that ended as [o]. *)
Lemma handleStreamMessage_left openai items o ch :
  openai (request_for true b c) = Resolved items →
  (∀ w0, for_await items pending0 (w0, channel0) = (o, (w0, ch))) →
  handleStreamMessage env b openai w
  = (Returned (text_stream (left_channel o ch)),
     {| conversations := <[sid := left_conversation o text c]> (conversations w);
        upstream_calls := upstream_calls w ++ [request_for true b c] |}).
Proof.
  intros Hup Hloop.
  rewrite (handleStreamMessage_unfold env b w sid text c) by done.
  unfold bind at 1, new_ReadableStream, start, try_catch.
  unfold bind at 1, on_world, responses_create. unfold bind at 1, modify.
  cbn [conversations upstream_calls]. rewrite Hup. unfold ret at 1.
  unfold bind at 1. fold pending0 channel0. rewrite Hloop.
  destruct o as [[exit p]|]; cbn [left_channel left_conversation].
  - destruct exit; [| |done];
      (destruct (JS.truthy (Some (responseId p))); [|done];
       cbn; unfold bind, push_responseId, push_message, modify, ret; cbn;
       rewrite alter_alter_eq, alter_insert_eq; cbn;
       unfold with_reply, with_user_turn; cbn;
       by rewrite <-(assoc_L (++))).
  - unfold controller_error, modify, errored.
    by destruct ch as [cs []].
Qed.

End stream_left.

Lemma delta_payloads_app (a b : list StreamEvent) :
  delta_payloads (a ++ b) = delta_payloads a ++ delta_payloads b.
Proof.
  induction a as [|e a IH]; [done|]. cbn.
  destruct (is_delta e), (event_delta e); cbn; by rewrite ?IH.
Qed.

Lemma forwarded_app (a b : list StreamEvent) :
  forwarded (a ++ b) = forwarded a ++ forwarded b.
Proof. unfold forwarded. by rewrite delta_payloads_app, filter_app, fmap_app. Qed.

(** An event that carries an error and is no completion event: what it
    may carry of a delta is forwarded, then the channel is errored. *)
Lemma for_await_error_event (e : StreamEvent) (post : list Pull) p ch :
  is_done e = false → has_error e = true → channel_state ch = Readable →
  ∃ p', ∀ w,
    for_await (Yield e :: post) p (w, ch)
    = (Returned (ReturnedEarly, p'),
       (w, {| chunks := chunks ch ++ forwarded [e]; channel_state := Errored |})).
Proof.
  intros Hdone Herr Hst. destruct ch as [cs st]. simpl in Hst. subst st.
  unfold forwarded. cbn [delta_payloads chunks].
  destruct (is_delta e) eqn:Hd.
  - destruct (event_delta e) as [d|] eqn:Hdelta.
    + destruct (String.eqb_spec d "") as [->|Hne].
      * rewrite filter_cons_False by (by intros []).
        eexists. intros w. cbn [for_await]. rewrite Hdone, Herr, Hd, Hdelta.
        unfold bind, ret, controller_error, modify. cbn.
        by rewrite app_nil_r.
      * rewrite filter_cons_True by done.
        eexists. intros w. cbn [for_await]. rewrite Hdone, Herr, Hd, Hdelta.
        cbn [andb JS.truthy]. destruct (String.eqb_spec d "") as [|_]; [done|].
        unfold bind, ret, controller_enqueue, controller_error, modify.
        cbn. reflexivity.
    + eexists. intros w. cbn [for_await]. rewrite Hdone, Herr, Hd, Hdelta.
      unfold bind, ret, controller_error, modify. cbn.
      by rewrite app_nil_r.
  - eexists. intros w. cbn [for_await]. rewrite Hdone, Herr, Hd.
    unfold bind, ret, controller_error, modify. cbn.
    rewrite app_nil_r. by destruct (event_delta e).
Qed.

Section stream_failures.

Context (env : WorkerEnv) (b : RelayBody) (w : World).
Context (openai : CreateParams → Settled (list Pull)).
Context (sid text : string) (c : Conversation).
Hypothesis (Hvalid : invalid_request b = false) (Hkey : configured env).
Hypothesis (Hsid : sessionId b = Some sid) (Htext : message b = Some text).
Hypothesis (Hfound : conversations w !! sid = Some c).

(** X4. Once the request passed the checks and the session is found, the
    streaming relay returns its 200 response whatever upstream does: it
    never throws. The session is left with the user turn and at most one
    reply; and when the caller's channel ends errored, with the user
    turn alone. *)
Theorem stream_relay_always_answers :
  ∃ ch w' c',
    handleStreamMessage env b openai w = (Returned (text_stream ch), w')
    ∧ conversations w' !! sid = Some c'
    ∧ extends text c c'
    ∧ (channel_state ch = Errored → c' = with_user_turn text c).
Proof.
  destruct (openai (request_for true b c)) as [items|] eqn:Hup.
  - destruct (for_await_exit items pending0 channel0 eq_refl)
      as (o & ch & Hrun & Hstate).
    rewrite (handleStreamMessage_left env b w sid text c) with (o := o) (ch := ch)
      (items := items) by done.
    eexists _, _, _. split; [reflexivity|]. cbn [conversations].
    split; [apply lookup_insert_eq|].
    destruct o as [[[] p]|]; cbn [left_conversation left_channel exit_state] in *;
      try (destruct (JS.truthy (Some (responseId p))));
      (split; [first [by left | right; eauto]
              | first [done | congruence | unfold errored; destruct ch as [? []]; done]]).
  - rewrite (handleStreamMessage_rejected env b w sid text c) by done.
    eexists _, _, _. split; [reflexivity|]. cbn [conversations].
    split; [apply lookup_insert_eq|]. split; [by left | done].
Qed.

(** X5. When an event carrying an error arrives before any completion
    event, the relay has forwarded (enqueued on the channel) the
    non-empty deltas up to and including that event's own, the channel
    is errored, and the session keeps the user turn only; what upstream
    sends after it is not read. *)
Theorem stream_error_event_aborts pre e post :
  openai (request_for true b c) = Resolved ((Yield <$> pre) ++ Yield e :: post) →
  Forall quiet pre → is_done e = false → has_error e = true →
  handleStreamMessage env b openai w
  = (Returned (text_stream {| chunks := forwarded (pre ++ [e]);
                              channel_state := Errored |}),
     {| conversations := <[sid := with_user_turn text c]> (conversations w);
        upstream_calls := upstream_calls w ++ [request_for true b c] |}).
Proof.
  intros Hup Hq Hdone Herr.
  destruct (for_await_error_event e post
              {| fullResponse := "" +:+ join (delta_payloads pre);
                 responseId := captured_id pre "" |}
              {| chunks := [] ++ forwarded pre; channel_state := Readable |}
              Hdone Herr eq_refl) as [p' Hstep].
  rewrite (handleStreamMessage_left env b w sid text c)
    with (o := Returned (ReturnedEarly, p'))
         (ch := {| chunks := forwarded (pre ++ [e]); channel_state := Errored |})
         (items := (Yield <$> pre) ++ Yield e :: post); [done..|].
  intros w0. unfold pending0, channel0. rewrite for_await_quiet by done.
  cbn [fullResponse responseId chunks]. rewrite Hstep.
  by rewrite forwarded_app.
Qed.

(** X6. When the upstream iterator throws before any completion event,
    the relay has forwarded (enqueued on the channel) the non-empty
    deltas read so far, the channel is errored, and the session keeps
    the user turn only. *)
Theorem stream_exception_aborts pre post :
  openai (request_for true b c) = Resolved ((Yield <$> pre) ++ IterThrow :: post) →
  Forall quiet pre →
  handleStreamMessage env b openai w
  = (Returned (text_stream {| chunks := forwarded pre; channel_state := Errored |}),
     {| conversations := <[sid := with_user_turn text c]> (conversations w);
        upstream_calls := upstream_calls w ++ [request_for true b c] |}).
Proof.
  intros Hup Hq.
  rewrite (handleStreamMessage_left env b w sid text c)
    with (o := Threw)
         (ch := {| chunks := forwarded pre; channel_state := Readable |})
         (items := (Yield <$> pre) ++ IterThrow :: post); [done..|].
  intros w0. unfold pending0, channel0. by rewrite for_await_quiet by done.
Qed.

End stream_failures.

Lemma stream_relay_always_answers_witness :
  ∃ ch w' c',
    handleStreamMessage Sample.env Sample.hello SampleStream.drops Sample.started
    = (Returned (text_stream ch), w')
    ∧ conversations w' !! Sample.sid = Some c'
    ∧ extends "Hello" Sample.fresh c'
    ∧ (channel_state ch = Errored → c' = with_user_turn "Hello" Sample.fresh).
Proof.
  exact (stream_relay_always_answers Sample.env Sample.hello Sample.started
           SampleStream.drops Sample.sid "Hello" Sample.fresh
           sample_hello_valid eq_refl eq_refl eq_refl sample_started).
Defined.

Lemma stream_error_event_aborts_witness :
  ∃ w',
    handleStreamMessage Sample.env Sample.hello SampleStream.fails Sample.started
    = (Returned (text_stream {| chunks := [encode "Bon"]; channel_state := Errored |}),
       w')
    ∧ conversations w' !! Sample.sid = Some (with_user_turn "Hello" Sample.fresh).
Proof.
  eexists. split.
  - apply (stream_error_event_aborts Sample.env Sample.hello Sample.started
             SampleStream.fails Sample.sid "Hello" Sample.fresh
             sample_hello_valid eq_refl eq_refl eq_refl sample_started
             Sample.cut_short SampleStream.failing [Yield Sample.done] eq_refl);
      [repeat constructor | reflexivity | reflexivity].
  - apply lookup_insert_eq.
Defined.

Lemma stream_exception_aborts_witness :
  ∃ w',
    handleStreamMessage Sample.env Sample.hello SampleStream.drops Sample.started
    = (Returned (text_stream {| chunks := [encode "Bon"]; channel_state := Errored |}),
       w')
    ∧ conversations w' !! Sample.sid = Some (with_user_turn "Hello" Sample.fresh).
Proof.
  eexists. split.
  - apply (stream_exception_aborts Sample.env Sample.hello Sample.started
             SampleStream.drops Sample.sid "Hello" Sample.fresh
             sample_hello_valid eq_refl eq_refl eq_refl sample_started
             Sample.cut_short [] eq_refl).
    repeat constructor.
  - apply lookup_insert_eq.
Defined.

(** ** The store across calls *)

Lemma extends_prefix text (c c' : Conversation) :
  extends text c c' →
  messages c `prefix_of` messages c' ∧ responseIds c `prefix_of` responseIds c'.
Proof.
  intros [->|(id & reply & ->)]; cbn; split;
    by (done || apply prefix_app_r).
Qed.

(** X7. A relay call, whatever its outcome, changes no session but the
    one its request names, and neither adds nor removes a session. *)
Theorem relay_touches_one_session (call : Call) streaming env b (w : World) :
  relay_of call = Some (streaming, env, b) →
  dom (conversations (after call w)) = dom (conversations w)
  ∧ ∀ sid, sessionId b ≠ Some sid →
      conversations (after call w) !! sid = conversations w !! sid.
Proof.
  intros Hcall.
  destruct (relay_effects call streaming env b w Hcall)
    as [-> | sid text c c' Hsid _ Hfound _ ->]; [done|].
  cbn [conversations]. split.
  - apply dom_insert_lookup_L. by eexists.
  - intros sid' Hne. apply lookup_insert_ne. congruence.
Qed.

Lemma relay_touches_one_session_witness :
  dom (conversations (after Sample.second (Sample.after_first "r1")))
  = dom (conversations (Sample.after_first "r1"))
  ∧ conversations (after Sample.second (Sample.after_first "r1")) !! "session_0_none"
    = conversations (Sample.after_first "r1") !! "session_0_none".
Proof.
  destruct (relay_touches_one_session Sample.second false Sample.env Sample.again
              (Sample.after_first "r1") eq_refl) as [Hdom Hother].
  split; [exact Hdom|]. apply Hother. vm_compute. discriminate.
Defined.

Lemma history_kept_after (call : Call) (w : World) sid c :
  creates call ≠ Some sid →
  conversations w !! sid = Some c →
  ∃ c', conversations (after call w) !! sid = Some c'
    ∧ messages c `prefix_of` messages c'
    ∧ responseIds c `prefix_of` responseIds c'.
Proof.
  intros Hcreate Hc. destruct (relay_of call) as [[[streaming env] b]|] eqn:Hcall.
  - destruct (relay_effects call streaming env b w Hcall)
      as [-> | sid0 text c0 c' Hsid _ Hfound Hext ->]; [by exists c|].
    cbn [conversations]. destruct (decide (sid0 = sid)) as [->|Hne].
    + rewrite lookup_insert_eq. simplify_eq. exists c'.
      split; [done|]. by eapply extends_prefix.
    + rewrite lookup_insert_ne by done. by exists c.
  - destruct call as [now random36| |]; try discriminate Hcall.
    rewrite start_effect. cbn [conversations].
    rewrite lookup_insert_ne; [by exists c|]. cbn in Hcreate. congruence.
Qed.

(** X8. The history of a session only grows: across any calls among
    which no create call draws the session's identifier anew, the
    messages and the continuation tokens it had stay, in order, at the
    head of those it has. *)
Theorem history_is_append_only (cs : list Call) (w : World) sid c :
  Forall (λ call, creates call ≠ Some sid) cs →
  conversations w !! sid = Some c →
  ∃ c', conversations (after_all cs w) !! sid = Some c'
    ∧ messages c `prefix_of` messages c'
    ∧ responseIds c `prefix_of` responseIds c'.
Proof.
  intros Hcs. revert w c. induction Hcs as [|call cs Hcall _ IH]; intros w c Hc.
  - by exists c.
  - destruct (history_kept_after call w sid c Hcall Hc) as (c1 & Hc1 & Hm1 & Hr1).
    destruct (IH (after call w) c1 Hc1) as (c' & Hc' & Hm & Hr).
    exists c'. split; [exact Hc'|]. split; by etrans.
Qed.

Lemma history_is_append_only_witness :
  ∃ c', conversations (after_all [Sample.second; Sample.second_streamed]
                         (Sample.after_first "r1")) !! Sample.sid = Some c'
    ∧ messages (Sample.exchanged "r1") `prefix_of` messages c'
    ∧ responseIds (Sample.exchanged "r1") `prefix_of` responseIds c'.
Proof.
  apply history_is_append_only.
  - repeat constructor; discriminate.
  - vm_compute. reflexivity.
Defined.

(** X9. Sessions are never removed and only create calls add any: after
    any calls the identifiers of the store are those it had and those
    the create calls among them bound. *)
Theorem sessions_are_never_removed (cs : list Call) (w : World) :
  dom (conversations (after_all cs w))
  = dom (conversations w) ∪ list_to_set (omap creates cs).
Proof.
  revert w. induction cs as [|call cs IH]; intros w.
  - cbn. by rewrite (right_id_L ∅ (∪)).
  - cbn [after_all foldl]. fold (after_all cs (after call w)). rewrite IH.
    destruct (relay_of call) as [[[streaming env] b]|] eqn:Hcall.
    + assert (creates call = None) as Hnone
        by (destruct call; [discriminate Hcall|done..]).
      cbn [omap list_omap]. rewrite Hnone. f_equal.
      destruct (relay_effects call streaming env b w Hcall)
        as [-> | sid text c c' _ _ Hfound _ ->]; [done|].
      cbn [conversations]. apply dom_insert_lookup_L. by eexists.
    + destruct call as [now random36| |]; try discriminate Hcall.
      rewrite start_effect. cbn [conversations omap list_omap creates].
      rewrite dom_insert_L, list_to_set_cons.
      by rewrite (assoc_L (∪)), (comm_L (∪) (dom _) {[_]}).
Qed.

(** X10. The record of the requests handed upstream is only ever
    extended, and by at most one request for each relay call among the
    calls served: no call retries, and a create call makes none. *)
Theorem upstream_called_at_most_once (cs : list Call) (w : World) :
  ∃ l, upstream_calls (after_all cs w) = upstream_calls w ++ l
    ∧ length l ≤ length (omap relay_of cs).
Proof.
  revert w. induction cs as [|call cs IH]; intros w.
  - exists []. by rewrite app_nil_r.
  - cbn [after_all foldl]. fold (after_all cs (after call w)).
    destruct (IH (after call w)) as (l & -> & Hl).
    cbn [omap list_omap].
    destruct (relay_of call) as [[[streaming env] b]|] eqn:Hcall.
    + destruct (relay_effects call streaming env b w Hcall)
        as [-> | sid text c c' _ _ _ _ ->].
      * exists l. split; [done|]. cbn. lia.
      * cbn [upstream_calls]. eexists. rewrite <-(assoc_L (++)).
        split; [reflexivity|]. cbn. lia.
    + destruct call as [now random36| |]; try discriminate Hcall.
      rewrite start_effect. cbn [upstream_calls]. by exists l.
Qed.

(** ** Create, then relay *)

Lemma new_sessionId_nonempty now random36 : new_sessionId now random36 ≠ "".
Proof. unfold new_sessionId. by rewrite string_app_cons. Qed.

(** X11. The identifier a create call hands out is accepted by both
    relays: a well-formed request naming it, served next with the
    credential configured, is not refused but handed upstream, once,
    with the instructions of its language and without prior context,
    whatever the store held under that identifier before. *)
Theorem created_session_is_accepted now random36 (w : World) (call : Call)
    streaming env b (text lang : string) :
  relay_of call = Some (streaming, env, b) →
  sessionId b = Some (new_sessionId now random36) →
  message b = Some text → text ≠ "" →
  targetLang b = Some lang → supported lang →
  configured env →
  ∃ p, issued call (after (StartConversation now random36) w) = [p]
    ∧ previous_response_id p = None
    ∧ stream p = streaming
    ∧ instructions p = getLanguageInstructions lang.
Proof.
  intros Hcall Hsid Htext Hne Hlang Hsup Hkey.
  eexists. split.
  - eapply relay_issues; [exact Hcall | | exact Hkey | exact Hsid |].
    + eapply valid_request; eauto using new_sessionId_nonempty.
    + rewrite start_effect. apply lookup_insert_eq.
  - cbn. by rewrite Hlang.
Qed.

Lemma created_session_is_accepted_witness :
  ∃ p, issued Sample.second_streamed
         (after (StartConversation 1700000000000 "0.4fzyo82mvyr")
            (Sample.after_first "r1")) = [p]
    ∧ previous_response_id p = None
    ∧ stream p = true
    ∧ instructions p = getLanguageInstructions "fr".
Proof.
  apply (created_session_is_accepted 1700000000000 "0.4fzyo82mvyr"
           (Sample.after_first "r1") Sample.second_streamed true Sample.env
           Sample.again "Merci" "fr");
    [reflexivity | reflexivity | reflexivity | discriminate | reflexivity
    | by exists fr | reflexivity].
Defined.

(** ** Trimming *)

Lemma strip_prefix_Some (p l r : list ascii) :
  JS.strip_prefix p l = Some r → l = p ++ r.
Proof.
  revert l. induction p as [|a p IH]; intros [|x l] H; cbn in H; simplify_eq;
    try done.
  destruct (Ascii.eqb_spec a x) as [->|]; [|done].
  cbn. f_equal. by apply IH.
Qed.

Lemma strip_prefix_app (p l r x : list ascii) :
  JS.strip_prefix p l = Some r → JS.strip_prefix p (l ++ x) = Some (r ++ x).
Proof.
  revert l. induction p as [|a p IH]; intros [|y l] H; cbn in *; simplify_eq;
    try done.
  destruct (Ascii.eqb a y); [by apply IH | done].
Qed.

Lemma strip_any_Some (seqs : list (list ascii)) (l r : list ascii) :
  JS.strip_any seqs l = Some r → ∃ p, p ∈ seqs ∧ l = p ++ r.
Proof.
  induction seqs as [|p seqs IH]; cbn; [done|].
  destruct (JS.strip_prefix p l) eqn:Hp.
  - intros [= ->]. exists p. split; [left | by apply strip_prefix_Some].
  - intros (q & ? & ?)%IH. exists q. split; [by right | done].
Qed.

Lemma strip_any_app (seqs : list (list ascii)) (l x : list ascii) :
  is_Some (JS.strip_any seqs l) → is_Some (JS.strip_any seqs (l ++ x)).
Proof.
  induction seqs as [|p seqs IH]; cbn; [done|].
  destruct (JS.strip_prefix p l) eqn:Hp.
  - rewrite (strip_prefix_app _ _ _ x Hp). eauto.
  - intros H. destruct (JS.strip_prefix p (l ++ x)); eauto.
Qed.

Lemma strip_any_nil (seqs : list (list ascii)) :
  Forall (λ p, p ≠ []) seqs → JS.strip_any seqs [] = None.
Proof.
  induction 1 as [|p seqs Hp _ IH]; cbn; [done|]. by destruct p.
Qed.

(** With fuel for every character, stripping stops where no sequence is
    left to strip. *)
Lemma strip_all_stops (seqs : list (list ascii)) (fuel : nat) (l : list ascii) :
  Forall (λ p, p ≠ []) seqs → length l ≤ fuel →
  JS.strip_any seqs (JS.strip_all seqs fuel l) = None.
Proof.
  intros Hne. revert l. induction fuel as [|fuel IH]; intros l Hl; cbn.
  - destruct l; [|cbn in Hl; lia]. by apply strip_any_nil.
  - destruct (JS.strip_any seqs l) as [r|] eqn:Hs; [|done].
    apply IH. apply strip_any_Some in Hs as (p & Hp & ->).
    rewrite Forall_forall in Hne. specialize (Hne p Hp).
    destruct p; [done|]. cbn in Hl. rewrite length_app in Hl. lia.
Qed.

Lemma strip_all_suffix (seqs : list (list ascii)) (fuel : nat) (l : list ascii) :
  ∃ lead, l = lead ++ JS.strip_all seqs fuel l.
Proof.
  revert l. induction fuel as [|fuel IH]; intros l; cbn; [by exists []|].
  destruct (JS.strip_any seqs l) as [r|] eqn:Hs; [|by exists []].
  apply strip_any_Some in Hs as (p & _ & ->). destruct (IH r) as [lead Hlead].
  exists (p ++ lead). rewrite <-(assoc_L (++)). f_equal. exact Hlead.
Qed.

Lemma white_space_nonempty : Forall (λ p, p ≠ []) JS.white_space.
Proof. apply (bool_decide_unpack _). vm_compute. exact I. Qed.

Lemma white_space_rev_nonempty :
  Forall (λ p, p ≠ []) (map (@rev ascii) JS.white_space).
Proof. apply (bool_decide_unpack _). vm_compute. exact I. Qed.

Lemma trim_trimmed (s : string) :
  ¬ led_by_space (String.list_ascii_of_string (JS.trim s))
  ∧ ¬ trailed_by_space (String.list_ascii_of_string (JS.trim s)).
Proof.
  unfold JS.trim. rewrite String.list_ascii_of_string_of_list_ascii.
  set (l := JS.trim_start (String.list_ascii_of_string s)).
  assert (JS.strip_any JS.white_space l = None) as Hl.
  { apply strip_all_stops; [apply white_space_nonempty | done]. }
  unfold led_by_space, trailed_by_space, JS.trim_end. split.
  - destruct (strip_all_suffix (map (@rev ascii) JS.white_space) (length l) (rev l))
      as [lead Hlead].
    intros H. apply (strip_any_app _ _ (rev lead)) in H.
    rewrite <-rev_app_distr, <-Hlead, rev_involutive, Hl in H.
    by destruct H.
  - rewrite rev_involutive, strip_all_stops;
      [by intros [] | apply white_space_rev_nonempty | by rewrite length_rev].
Qed.

Lemma empty_trimmed :
  ¬ led_by_space (String.list_ascii_of_string "")
  ∧ ¬ trailed_by_space (String.list_ascii_of_string "").
Proof.
  unfold led_by_space, trailed_by_space. cbn [String.list_ascii_of_string rev].
  rewrite !strip_any_nil by (apply white_space_nonempty || apply white_space_rev_nonempty).
  split; by intros [].
Qed.

(** Stripping removes sequences of the list given, and nothing else. *)
Lemma strip_all_lead (seqs : list (list ascii)) (fuel : nat) (l : list ascii) :
  ∃ ps, Forall (λ p, p ∈ seqs) ps ∧ l = concat ps ++ JS.strip_all seqs fuel l.
Proof.
  revert l. induction fuel as [|fuel IH]; intros l; cbn; [by exists []|].
  destruct (JS.strip_any seqs l) as [r|] eqn:Hs; [|by exists []].
  apply strip_any_Some in Hs as (p & Hp & ->).
  destruct (IH r) as (ps & Hps & Hr).
  exists (p :: ps). split; [by constructor|].
  cbn. rewrite <-(assoc_L (++)). f_equal. exact Hr.
Qed.

Lemma elem_of_map_rev (q : list ascii) (seqs : list (list ascii)) :
  q ∈ map (@rev ascii) seqs → rev q ∈ seqs.
Proof.
  induction seqs as [|p seqs IH]; cbn; [by intros ?%elem_of_nil|].
  intros [->|Hq]%elem_of_cons.
  - rewrite rev_involutive. by left.
  - right. by apply IH.
Qed.

Lemma rev_white_spaces (qs : list (list ascii)) :
  Forall (λ q, q ∈ map (@rev ascii) JS.white_space) qs →
  white_spaces (rev (concat qs)).
Proof.
  induction 1 as [|q qs Hq _ (ps & Hps & IH)]; [by exists []|].
  exists (ps ++ [rev q]). split.
  - apply Forall_app. split; [done|]. constructor; [|done].
    by apply elem_of_map_rev.
  - cbn. rewrite rev_app_distr, IH, concat_app. cbn. by rewrite app_nil_r.
Qed.

(** [trim] takes white space off the two ends of a text, and nothing
    else. *)
Lemma trim_removes_white_space (s : string) :
  ∃ lead trail,
    String.list_ascii_of_string s
    = lead ++ String.list_ascii_of_string (JS.trim s) ++ trail
    ∧ white_spaces lead ∧ white_spaces trail.
Proof.
  unfold JS.trim. rewrite String.list_ascii_of_string_of_list_ascii.
  unfold JS.trim_start, JS.trim_end.
  set (l := String.list_ascii_of_string s).
  destruct (strip_all_lead JS.white_space (length l) l) as (ps & Hps & Hl).
  set (l1 := JS.strip_all JS.white_space (length l) l) in *.
  destruct (strip_all_lead (map (@rev ascii) JS.white_space) (length l1) (rev l1))
    as (qs & Hqs & Hl1).
  exists (concat ps), (rev (concat qs)). split; [|split].
  - rewrite <-rev_app_distr, <-Hl1, rev_involutive. exact Hl.
  - by exists ps.
  - by apply rev_white_spaces.
Qed.

(** X12. The reply the sync relay answers with is the output text of
    the upstream response without the white space at its two ends: what
    was taken off is white space, and none is left at either end. It is
    the empty text when the upstream response has no output text. The
    identifier answered is that of the upstream response. And the reply
    is the one the session keeps: the last turn of the session named in
    the request is the assistant turn with that text, and its last
    continuation token is the identifier answered. *)
Theorem sync_reply_is_trimmed env b openai (w w' : World) (r : Response)
    (reply id : string) :
  handleMessage env b openai w = (Returned r, w') →
  body r = JsonMessage reply id →
  ∃ sid c c' up,
    sessionId b = Some sid ∧ conversations w !! sid = Some c
    ∧ openai (request_for false b c) = Resolved up
    ∧ id = response_id up
    ∧ match output_text up with
      | Some text =>
          ∃ lead trail,
            String.list_ascii_of_string text
            = lead ++ String.list_ascii_of_string reply ++ trail
            ∧ white_spaces lead ∧ white_spaces trail
      | None => reply = ""
      end
    ∧ ¬ led_by_space (String.list_ascii_of_string reply)
    ∧ ¬ trailed_by_space (String.list_ascii_of_string reply)
    ∧ conversations w' !! sid = Some c'
    ∧ last (messages c') = Some (assistant_turn reply)
    ∧ last (responseIds c') = Some id.
Proof.
  intros Hrun Hbody.
  destruct (invalid_request b) eqn:Hvalid.
  { rewrite handleMessage_invalid in Hrun by done. by simplify_eq. }
  destruct (decide (configured env)) as [Hkey|Hkey].
  2: { rewrite handleMessage_no_key in Hrun by done. by simplify_eq. }
  destruct (invalid_request_false b Hvalid)
    as (sid & text & lang & Hsid & Htext & _).
  destruct (conversations w !! sid) as [c|] eqn:Hfound.
  2: { rewrite handleMessage_not_found in Hrun by (done || by rewrite Hsid).
       by simplify_eq. }
  destruct (openai (request_for false b c)) as [up|] eqn:Hup.
  2: { rewrite (handleMessage_rejected env b w sid text c) in Hrun by done.
       by simplify_eq. }
  rewrite (handleMessage_resolved env b w sid text c) with (r := up) in Hrun by done.
  simplify_eq. cbn in Hbody. simplify_eq.
  assert (¬ led_by_space (String.list_ascii_of_string (reply_text up))
          ∧ ¬ trailed_by_space (String.list_ascii_of_string (reply_text up)))
    as [??].
  { unfold reply_text. destruct (output_text up);
      [apply trim_trimmed | apply empty_trimmed]. }
  eexists sid, c, _, up. repeat (split; [done|]).
  split.
  { unfold reply_text. destruct (output_text up) as [out|]; [|done].
    apply trim_removes_white_space. }
  split; [done|]. split; [done|]. split; [apply lookup_insert_eq|].
  cbn [with_reply messages responseIds].
  by rewrite last_app, last_snoc.
Qed.

Lemma sync_reply_is_trimmed_witness :
  ∃ sid c c' up,
    sessionId Sample.hello = Some sid
    ∧ conversations Sample.started !! sid = Some c
    ∧ Sample.answers "r1" "  Bonjour " (request_for false Sample.hello c)
      = Resolved up
    ∧ "r1" = response_id up
    ∧ match output_text up with
      | Some text =>
          ∃ lead trail,
            String.list_ascii_of_string text
            = lead ++ String.list_ascii_of_string "Bonjour" ++ trail
            ∧ white_spaces lead ∧ white_spaces trail
      | None => "Bonjour" = ""
      end
    ∧ ¬ led_by_space (String.list_ascii_of_string "Bonjour")
    ∧ ¬ trailed_by_space (String.list_ascii_of_string "Bonjour")
    ∧ conversations
        (snd (handleMessage Sample.env Sample.hello
                (Sample.answers "r1" "  Bonjour ") Sample.started)) !! sid
      = Some c'
    ∧ last (messages c') = Some (assistant_turn "Bonjour")
    ∧ last (responseIds c') = Some "r1".
Proof.
  apply (sync_reply_is_trimmed Sample.env Sample.hello
           (Sample.answers "r1" "  Bonjour ") Sample.started _
           (json 200 (JsonMessage "Bonjour" "r1")));
    [vm_compute; reflexivity | reflexivity].
Defined.

(** ** The router *)

Lemma fetch_preflight (request : Request) env o (w : World) :
  request_method request = "OPTIONS" →
  fetch request env o w
  = (Returned {| served_status := 200;
                 served_headers := corsHeaders;
                 served_body := None |}, w).
Proof. intros H. unfold fetch. by rewrite H. Qed.

(** A handler run under the router's [try]: its response with the
    cross-origin headers, or the answer of the [catch] clause. *)
Lemma fetch_answer (m : M World Response) (w : World) :
  try_catch (let* r := m in ret (serve (addCorsHeaders r)))
    (ret (serve (addCorsHeaders (json 500 (JsonError "Internal server error"))))) w
  = match m w with
    | (Returned r, w') => (Returned (serve (addCorsHeaders r)), w')
    | (Threw, w') =>
        (Returned (serve (addCorsHeaders (json 500 (JsonError "Internal server error")))),
         w')
    end.
Proof. unfold try_catch, bind, ret. by destruct (m w) as [[r|] w']. Qed.

Lemma fetch_dispatched (request : Request) env o (call : Call) (w : World) :
  dispatched request env o = Some call →
  fetch request env o w
  = match handle call w with
    | (Returned r, w') => (Returned (serve (addCorsHeaders r)), w')
    | (Threw, w') =>
        (Returned (serve (addCorsHeaders (json 500 (JsonError "Internal server error")))),
         w')
    end.
Proof.
  unfold dispatched, fetch. destruct request as [method path parsed].
  cbn [request_method request_pathname request_json].
  destruct (String.eqb_spec method "POST") as [->|]; [|done].
  cbn [String.eqb Ascii.eqb Bool.eqb andb]. rewrite !andb_true_r.
  destruct (String.eqb path "/api/conversation/start").
  { intros [= <-]. apply fetch_answer. }
  destruct (String.eqb path "/api/conversation/message").
  { destruct parsed as [| |b]; [done..|]. intros [= <-].
    unfold read_body. cbn [request_json handle]. apply fetch_answer. }
  destruct (String.eqb path "/api/conversation/message/stream"); [|done].
  destruct parsed as [| |b]; [done..|]. intros [= <-].
  unfold read_body. cbn [request_json handle]. apply fetch_answer.
Qed.

Lemma fetch_unreadable (request : Request) env o (w : World) :
  relay_route request → (∀ b, request_json request ≠ Fields b) →
  fetch request env o w
  = (Returned (serve (addCorsHeaders (json 500 (JsonError "Internal server error")))),
     w).
Proof.
  intros [Hm Hp] Hbody. unfold fetch, read_body.
  destruct request as [method path parsed].
  cbn [request_method request_pathname request_json] in *. subst method.
  destruct parsed as [| |b]; [| |by destruct (Hbody b)];
    by destruct Hp as [-> | ->].
Qed.

Lemma fetch_unrouted (request : Request) env o (w : World) :
  ¬ routed request → request_method request ≠ "OPTIONS" →
  fetch request env o w
  = (Returned (serve (addCorsHeaders (json 404 (JsonError "Not found")))), w).
Proof.
  intros Hroute Hm. unfold fetch, routed in *.
  destruct request as [method path parsed].
  cbn [request_method request_pathname request_json] in *.
  destruct (String.eqb_spec method "OPTIONS"); [done|].
  destruct (String.eqb_spec method "POST") as [->|]; rewrite ?andb_false_r; [|done].
  rewrite !andb_true_r.
  destruct (String.eqb_spec path "/api/conversation/start"); [tauto|].
  destruct (String.eqb_spec path "/api/conversation/message"); [tauto|].
  destruct (String.eqb_spec path "/api/conversation/message/stream"); [tauto|].
  done.
Qed.

Lemma cors_carried : carries_cors corsHeaders.
Proof.
  intros name value spelling Hin Hsp. unfold header, Headers.get. rewrite Hsp.
  unfold corsHeaders in Hin.
  repeat (apply elem_of_cons in Hin as [[= -> ->]|Hin]);
    [vm_compute; reflexivity..|by apply elem_of_nil in Hin].
Qed.

Lemma carries_cors_served (r : Response) :
  carries_cors (served_headers (serve (addCorsHeaders r))).
Proof.
  intros name value spelling Hin Hsp. unfold header, Headers.get.
  cbn [serve served_headers]. rewrite headers_after_cors, Hsp.
  by apply cors_lookup.
Qed.

(** *** The statuses the handlers answer with *)

Lemma handleMessage_status env b openai (w w' : World) (r : Response) :
  handleMessage env b openai w = (Returned r, w') →
  status r = 200 ∨ status r = 400 ∨ status r = 404 ∨ status r = 500.
Proof.
  intros Hrun.
  destruct (invalid_request b) eqn:Hvalid.
  { rewrite handleMessage_invalid in Hrun by done. simplify_eq. cbn. tauto. }
  destruct (decide (configured env)) as [Hkey|Hkey].
  2: { rewrite handleMessage_no_key in Hrun by done. simplify_eq. cbn. tauto. }
  destruct (invalid_request_false b Hvalid)
    as (sid & text & lang & Hsid & Htext & _).
  destruct (conversations w !! sid) as [c|] eqn:Hfound.
  2: { rewrite handleMessage_not_found in Hrun by (done || by rewrite Hsid).
       simplify_eq. cbn. tauto. }
  destruct (openai (request_for false b c)) as [up|] eqn:Hup.
  2: { rewrite (handleMessage_rejected env b w sid text c) in Hrun by done.
       by simplify_eq. }
  rewrite (handleMessage_resolved env b w sid text c) with (r := up) in Hrun by done.
  simplify_eq. cbn. tauto.
Qed.

Lemma handleStreamMessage_status env b openai (w w' : World) (r : Response) :
  handleStreamMessage env b openai w = (Returned r, w') →
  status r = 200 ∨ status r = 400 ∨ status r = 404 ∨ status r = 500.
Proof.
  intros Hrun.
  destruct (invalid_request b) eqn:Hvalid.
  { rewrite handleStreamMessage_invalid in Hrun by done. simplify_eq. cbn. tauto. }
  destruct (decide (configured env)) as [Hkey|Hkey].
  2: { rewrite handleStreamMessage_no_key in Hrun by done. simplify_eq. cbn. tauto. }
  destruct (invalid_request_false b Hvalid)
    as (sid & text & lang & Hsid & Htext & _).
  destruct (conversations w !! sid) as [c|] eqn:Hfound.
  2: { rewrite handleStreamMessage_not_found in Hrun by (done || by rewrite Hsid).
       simplify_eq. cbn. tauto. }
  rewrite (handleStreamMessage_unfold env b w sid text c) in Hrun by done.
  unfold bind, ret in Hrun.
  destruct (new_ReadableStream _ _) as [[ch|] w0]; simplify_eq. cbn. tauto.
Qed.

Lemma handle_status (call : Call) (w w' : World) (r : Response) :
  handle call w = (Returned r, w') →
  status r = 200 ∨ status r = 400 ∨ status r = 404 ∨ status r = 500.
Proof.
  destruct call as [now random36|env b openai|env b openai]; cbn [handle].
  - intros [= <- _]. cbn. tauto.
  - apply handleMessage_status.
  - apply handleStreamMessage_status.
Qed.

(** Every request is a preflight, is dispatched to a handler, has a body
    a relay cannot read, or matches no route. *)
Lemma request_cases (request : Request) env o :
  request_method request = "OPTIONS"
  ∨ is_Some (dispatched request env o)
  ∨ (relay_route request ∧ ∀ b, request_json request ≠ Fields b)
  ∨ (¬ routed request ∧ request_method request ≠ "OPTIONS").
Proof.
  unfold dispatched, relay_route, routed.
  destruct request as [method path parsed].
  cbn [request_method request_pathname request_json].
  destruct (String.eqb_spec method "OPTIONS") as [|Hopt]; [by left|]. right.
  destruct (String.eqb_spec method "POST") as [->|]; [|right; right; tauto].
  destruct (String.eqb_spec path "/api/conversation/start"); [left; eauto|].
  destruct (String.eqb_spec path "/api/conversation/message").
  { destruct parsed; [right; left; split; [tauto|done]..|left; eauto]. }
  destruct (String.eqb_spec path "/api/conversation/message/stream").
  { destruct parsed; [right; left; split; [tauto|done]..|left; eauto]. }
  right; right. tauto.
Qed.

(** X13. The worker answers every request: no exception leaves [fetch],
    whatever the request, the environment, the upstream API and the
    store. Every answer, the preflight one and the errors included,
    carries the three cross-origin headers, and its status is 200, 400,
    404 or 500. *)
Theorem worker_always_answers (request : Request) env o (w : World) :
  ∃ s w',
    fetch request env o w = (Returned s, w')
    ∧ carries_cors (served_headers s)
    ∧ (served_status s = 200 ∨ served_status s = 400
       ∨ served_status s = 404 ∨ served_status s = 500).
Proof.
  destruct (request_cases request env o)
    as [Hopt | [[call Hcall] | [[Hroute Hbody] | [Hroute Hopt]]]].
  - rewrite fetch_preflight by done. eexists _, _. split; [done|].
    split; [apply cors_carried | cbn; tauto].
  - rewrite (fetch_dispatched _ _ _ call) by done.
    destruct (handle call w) as [[r|] w'] eqn:Hrun;
      (eexists _, _; split; [done|]; split; [apply carries_cors_served|]).
    + apply (handle_status call w w' r Hrun).
    + cbn. tauto.
  - rewrite fetch_unreadable by done. eexists _, _. split; [done|].
    split; [apply carries_cors_served | cbn; tauto].
  - rewrite fetch_unrouted by done. eexists _, _. split; [done|].
    split; [apply carries_cors_served | cbn; tauto].
Qed.

(** X14. A request that matches none of the three routes changes
    nothing: the store and the record of upstream requests are as
    before. A preflight, on any path, is answered 200 without a body;
    any other such request is answered 404, "Not found". *)
Theorem unrouted_requests_change_nothing (request : Request) env o (w : World) :
  ¬ routed request →
  ∃ s,
    fetch request env o w = (Returned s, w)
    ∧ (request_method request = "OPTIONS" →
       served_status s = 200 ∧ served_body s = None)
    ∧ (request_method request ≠ "OPTIONS" →
       served_status s = 404 ∧ served_body s = Some (JsonError "Not found")).
Proof.
  intros Hroute.
  destruct (decide (request_method request = "OPTIONS")) as [Hopt|Hopt].
  - rewrite fetch_preflight by done. eexists. split; [done|]. by split.
  - rewrite fetch_unrouted by done. eexists. split; [done|]. by split.
Qed.

Lemma unrouted_requests_change_nothing_witness :
  ∃ s,
    fetch (SampleRequest.get "/api/conversation/start") Sample.env
      SampleRequest.outside Sample.started
    = (Returned s, Sample.started)
    ∧ (request_method (SampleRequest.get "/api/conversation/start") = "OPTIONS" →
       served_status s = 200 ∧ served_body s = None)
    ∧ (request_method (SampleRequest.get "/api/conversation/start") ≠ "OPTIONS" →
       served_status s = 404 ∧ served_body s = Some (JsonError "Not found")).
Proof.
  apply (unrouted_requests_change_nothing (SampleRequest.get "/api/conversation/start")).
  by intros [[=] _].
Defined.

(** X15. On both relay routes a request whose body is not JSON, or is
    the JSON [null], is answered 500, "Internal server error", not 400;
    nothing is changed and nothing is handed upstream. *)
Theorem unreadable_body_is_a_server_error (request : Request) env o (w : World) :
  relay_route request →
  (∀ b, request_json request ≠ Fields b) →
  ∃ s,
    fetch request env o w = (Returned s, w)
    ∧ served_status s = 500
    ∧ served_body s = Some (JsonError "Internal server error").
Proof.
  intros Hroute Hbody. rewrite fetch_unreadable by done.
  eexists. by split.
Qed.

Lemma unreadable_body_is_a_server_error_witness :
  ∃ s,
    fetch (SampleRequest.post "/api/conversation/message/stream" Null) Sample.env
      SampleRequest.outside Sample.started
    = (Returned s, Sample.started)
    ∧ served_status s = 500
    ∧ served_body s = Some (JsonError "Internal server error").
Proof.
  apply (unreadable_body_is_a_server_error
           (SampleRequest.post "/api/conversation/message/stream" Null)).
  - split; [reflexivity | by right].
  - discriminate.
Defined.

(** X16. The router adds nothing to a handler but the cross-origin
    headers: a request dispatched to a handler that returns is answered
    with the handler's status and body and with its headers under every
    other name, and the store is left as the handler left it. *)
Theorem router_answers_what_the_handler_returned (request : Request) env o
    (call : Call) (w w' : World) (r : Response) :
  dispatched request env o = Some call →
  handle call w = (Returned r, w') →
  ∃ s,
    fetch request env o w = (Returned s, w')
    ∧ served_status s = status r
    ∧ served_body s = Some (body r)
    ∧ ∀ name, ¬ cors_name name →
        header name (served_headers s) = header name (headers r).
Proof.
  intros Hcall Hrun. rewrite (fetch_dispatched _ _ _ call), Hrun by done.
  eexists. split; [done|]. split; [done|]. split; [done|].
  intros name Hname. cbn [serve served_headers].
  unfold header, Headers.get. rewrite headers_after_cors.
  by apply cors_lookup_other.
Qed.

Lemma router_answers_what_the_handler_returned_witness :
  ∃ s,
    fetch SampleRequest.hello Sample.env SampleRequest.outside Sample.started
    = (Returned s,
       snd (handleMessage Sample.env Sample.hello
              (Sample.answers "r1" "  Bonjour ") Sample.started))
    ∧ served_status s = 200
    ∧ served_body s = Some (JsonMessage "Bonjour" "r1")
    ∧ ∀ name, ¬ cors_name name →
        header name (served_headers s)
        = header name [("Content-Type", "application/json")].
Proof.
  apply (router_answers_what_the_handler_returned SampleRequest.hello Sample.env
           SampleRequest.outside
           (SendMessage Sample.env Sample.hello (Sample.answers "r1" "  Bonjour "))
           Sample.started _ (json 200 (JsonMessage "Bonjour" "r1")));
    [reflexivity | vm_compute; reflexivity].
Defined.

Section upstream_unreachable.

Context (request : Request) (env : WorkerEnv) (o : Outside) (w : World).
Context (b : RelayBody) (sid text : string) (c : Conversation).
Hypothesis (Hmethod : request_method request = "POST").
Hypothesis (Hbody : request_json request = Fields b).
Hypothesis (Hvalid : invalid_request b = false) (Hkey : configured env).
Hypothesis (Hsid : sessionId b = Some sid) (Htext : message b = Some text).
Hypothesis (Hfound : conversations w !! sid = Some c).

(** X17. When the upstream API rejects the request of a sync relay, the
    worker answers 500, "Internal server error"; the user turn stays in
    the session, without a reply and without a new continuation token,
    and the request is on record as handed upstream. *)
Theorem sync_failure_is_a_server_error :
  request_pathname request = "/api/conversation/message" →
  create_response o (request_for false b c) = Rejected →
  ∃ s,
    fetch request env o w
    = (Returned s,
       {| conversations := <[sid := with_user_turn text c]> (conversations w);
          upstream_calls := upstream_calls w ++ [request_for false b c] |})
    ∧ served_status s = 500
    ∧ served_body s = Some (JsonError "Internal server error").
Proof.
  intros Hpath Hup.
  rewrite (fetch_dispatched _ _ _ (SendMessage env b (create_response o))).
  2: { unfold dispatched. by rewrite Hmethod, Hpath, Hbody. }
  cbn [handle]. rewrite (handleMessage_rejected env b w sid text c) by done.
  eexists. by split.
Qed.

(** X18. When the upstream API rejects the request of a streaming
    relay, the worker still answers 200: the body is a stream that
    fails before its first chunk. The session is left as by the sync
    relay: the user turn stays, without a reply. *)
Theorem stream_failure_is_an_errored_body :
  request_pathname request = "/api/conversation/message/stream" →
  create_stream o (request_for true b c) = Rejected →
  ∃ s,
    fetch request env o w
    = (Returned s,
       {| conversations := <[sid := with_user_turn text c]> (conversations w);
          upstream_calls := upstream_calls w ++ [request_for true b c] |})
    ∧ served_status s = 200
    ∧ served_body s
      = Some (TextStream {| chunks := []; channel_state := Errored |}).
Proof.
  intros Hpath Hup.
  rewrite (fetch_dispatched _ _ _ (StreamMessage env b (create_stream o))).
  2: { unfold dispatched. by rewrite Hmethod, Hpath, Hbody. }
  cbn [handle]. rewrite (handleStreamMessage_rejected env b w sid text c) by done.
  eexists. by split.
Qed.

End upstream_unreachable.

Lemma sync_failure_is_a_server_error_witness :
  ∃ s,
    fetch SampleRequest.hello Sample.env SampleRequest.cut_off Sample.started
    = (Returned s,
       {| conversations :=
            <[Sample.sid := with_user_turn "Hello" Sample.fresh]>
              (conversations Sample.started);
          upstream_calls :=
            upstream_calls Sample.started
            ++ [request_for false Sample.hello Sample.fresh] |})
    ∧ served_status s = 500
    ∧ served_body s = Some (JsonError "Internal server error").
Proof.
  apply (sync_failure_is_a_server_error SampleRequest.hello Sample.env
           SampleRequest.cut_off Sample.started Sample.hello Sample.sid "Hello"
           Sample.fresh);
    [reflexivity | reflexivity | vm_compute; reflexivity | reflexivity
    | reflexivity | reflexivity | vm_compute; reflexivity | reflexivity
    | reflexivity].
Defined.

Lemma stream_failure_is_an_errored_body_witness :
  ∃ s,
    fetch (SampleRequest.post "/api/conversation/message/stream" (Fields Sample.hello))
      Sample.env SampleRequest.cut_off Sample.started
    = (Returned s,
       {| conversations :=
            <[Sample.sid := with_user_turn "Hello" Sample.fresh]>
              (conversations Sample.started);
          upstream_calls :=
            upstream_calls Sample.started
            ++ [request_for true Sample.hello Sample.fresh] |})
    ∧ served_status s = 200
    ∧ served_body s
      = Some (TextStream {| chunks := []; channel_state := Errored |}).
Proof.
  apply (stream_failure_is_an_errored_body
           (SampleRequest.post "/api/conversation/message/stream" (Fields Sample.hello))
           Sample.env SampleRequest.cut_off Sample.started Sample.hello Sample.sid
           "Hello" Sample.fresh);
    [reflexivity | reflexivity | vm_compute; reflexivity | reflexivity
    | reflexivity | reflexivity | vm_compute; reflexivity | reflexivity
    | reflexivity].
Defined.

(** ** The request handed upstream *)

(** X19. Every request a relay hands upstream, for a supported language,
    names the model gpt-4o-mini, asks for the response to be stored,
    streams exactly on the streaming route, and carries the user's text
    unchanged between the fixed words of the input, which end with the
    name of the language. The temperature and the token limit are those
    of the request body, 0.3 and 128 where the body gives none. *)
Theorem upstream_request_parameters (call : Call) streaming env b (w : World)
    (text : string) (l : TargetLang) (p : CreateParams) :
  relay_of call = Some (streaming, env, b) →
  message b = Some text → targetLang b = Some (code l) →
  p ∈ issued call w →
  stream p = streaming
  ∧ model p = "gpt-4o-mini"
  ∧ store p = true
  ∧ input p = "User message: " +:+ text +:+ JS.nl +:+ JS.nl
              +:+ "Please respond in " +:+ lang_name l +:+ " only."
  ∧ param_temperature p = default (Qmake 3 10) (temperature b)
  ∧ max_output_tokens p = default 128%Z (maxTokens b).
Proof.
  intros Hcall Htext Hlang Hp.
  destruct (relay_issued call streaming env b w p Hcall Hp)
    as (sid & c & _ & _ & ->).
  unfold request_for, relay_params, relay_input. cbn.
  by rewrite Htext, Hlang.
Qed.

Lemma upstream_request_parameters_witness :
  stream (request_for false Sample.hello Sample.fresh) = false
  ∧ model (request_for false Sample.hello Sample.fresh) = "gpt-4o-mini"
  ∧ store (request_for false Sample.hello Sample.fresh) = true
  ∧ input (request_for false Sample.hello Sample.fresh)
    = "User message: " +:+ "Hello" +:+ JS.nl +:+ JS.nl
      +:+ "Please respond in " +:+ lang_name fr +:+ " only."
  ∧ param_temperature (request_for false Sample.hello Sample.fresh)
    = default (Qmake 3 10) (temperature Sample.hello)
  ∧ max_output_tokens (request_for false Sample.hello Sample.fresh)
    = default 128%Z (maxTokens Sample.hello).
Proof.
  apply (upstream_request_parameters (Sample.first "r1") false Sample.env
           Sample.hello Sample.started "Hello" fr);
    [reflexivity | reflexivity | reflexivity |].
  replace (issued (Sample.first "r1") Sample.started)
    with [request_for false Sample.hello Sample.fresh]
    by (vm_compute; reflexivity).
  apply list_elem_of_here.
Defined.
